(** * PageRank analyzer: a shallow embedding of [pagerank.py]

    The development embeds the four functions of the computational core
    ([crawl], [transition_model], [sample_pagerank], [iterate_pagerank])
    and states the properties of the design document against them.

    Modelling conventions.
    - A Python [dict] is an insertion-ordered association list with
      pairwise distinct keys; a Python [set] is a list (only membership
      and cardinality are ever observed).
    - Python numbers are exact rationals ([Q]); a division whose divisor
      is zero raises [ZeroDivisionError], as in Python.  Where rounding
      matters the same functions are given again with the arithmetic as a
      parameter ([Generic]), binary64 being one instance.
    - Uncaught exceptions are values of the [result] type.
    - The module-level generator [random] is an explicit stream of
      uniform draws in the unit interval. *)

From Stdlib Require Import List String Ascii Bool Arith ZArith QArith Qabs Qround.
From Stdlib Require Import Lia Lqa Morphisms Setoid.
From Stdlib Require Import Floats Uint63.
Import ListNotations.

Local Open Scope string_scope.
Local Open Scope list_scope.
Local Open Scope Q_scope.

(* ================================================================== *)
(** ** Python run-time conventions *)

Module Py.

(** The exception classes the operations used by the program can
    raise.  [InvalidInput] and [ConvergenceFailure] are the two error
    kinds named by the design document; they are listed so that
    statements about them can be written down. *)
Inductive exn : Set :=
| ZeroDivisionError
| KeyError
| IndexError
| ValueError
| InvalidInput
| ConvergenceFailure.

Inductive result (A : Type) : Type :=
| Ok (a : A)
| Raise (e : exn).
Arguments Ok {A} a.
Arguments Raise {A} e.

Definition bind {A B} (m : result A) (k : A -> result B) : result B :=
  match m with
  | Ok a => k a
  | Raise e => Raise e
  end.

(** [for x in xs: acc = body(acc, x)] *)
Fixpoint for_each {A S} (xs : list A) (body : S -> A -> result S) (s : S)
  : result S :=
  match xs with
  | [] => Ok s
  | x :: xs' => bind (body s x) (for_each xs' body)
  end.

(** A comprehension [[f(x) for x in xs]]. *)
Fixpoint comprehension {A B} (f : A -> result B) (xs : list A)
  : result (list B) :=
  match xs with
  | [] => Ok []
  | x :: xs' =>
      bind (f x) (fun y => bind (comprehension f xs') (fun ys => Ok (y :: ys)))
  end.

(** *** Dictionaries with string keys *)

Definition dict (V : Type) : Type := list (string * V).

Definition keys {V} (d : dict V) : list string := map fst d.
Definition values {V} (d : dict V) : list V := map snd d.

Fixpoint lookup {V} (d : dict V) (k : string) : option V :=
  match d with
  | [] => None
  | (k', v) :: d' => if String.eqb k k' then Some v else lookup d' k
  end.

(** [k in d] *)
Definition contains {V} (d : dict V) (k : string) : bool :=
  match lookup d k with Some _ => true | None => false end.

(** [d[k]] *)
Definition getitem {V} (d : dict V) (k : string) : result V :=
  match lookup d k with Some v => Ok v | None => Raise KeyError end.

(** [d[k] = v]: an existing key keeps its position, a new key goes last. *)
Fixpoint setitem {V} (d : dict V) (k : string) (v : V) : dict V :=
  match d with
  | [] => [(k, v)]
  | (k', v') :: d' =>
      if String.eqb k k' then (k', v) :: d' else (k', v') :: setitem d' k v
  end.

(** *** Sets of strings *)

(** [x in s] *)
Definition mem (x : string) (s : list string) : bool :=
  existsb (String.eqb x) s.

(** [set(xs)] *)
Definition set_of (xs : list string) : list string := nodup string_dec xs.

(** [s - {x}] *)
Definition discard (s : list string) (x : string) : list string :=
  filter (fun y => negb (String.eqb y x)) s.

(** *** Arithmetic *)

(** [a / b] *)
Definition div (a b : Q) : result Q :=
  if Qeq_bool b 0 then Raise ZeroDivisionError else Ok (a / b).

(** [len(xs)] as a number *)
Definition len {A} (xs : list A) : Q := inject_Z (Z.of_nat (List.length xs)).

(** [a < b] *)
Definition lt (a b : Q) : bool :=
  match a ?= b with Lt => true | _ => false end.

(** [a <= b] *)
Definition le (a b : Q) : bool := Qle_bool a b.

(** [s.endswith(suffix)] *)
Definition endswith (s suffix : string) : bool :=
  let n := String.length s in
  let m := String.length suffix in
  (m <=? n)%nat && String.eqb (substring (n - m) m s) suffix.

End Py.

Import Py.

Notation "x <- m ;; k" := (Py.bind m (fun x => k))
  (at level 61, m at next level, right associativity).

(* ================================================================== *)
(** ** The random source *)

Module Rand.

(** The stream of uniform draws: [u i] is the value of the [i]-th call
    to the generator. *)
Definition source : Type := nat -> Q.

Definition unit_interval (u : source) : Prop :=
  forall i, 0 <= u i /\ u i < 1.

(** [random.choice(seq)]: an empty sequence raises [IndexError],
    otherwise the element at an index drawn below [len(seq)] is
    returned; the index drawn from [x] is the integer part of
    [x * len(seq)]. *)
Definition choice {A} (x : Q) (seq : list A) : result A :=
  match seq with
  | [] => Raise IndexError
  | _ =>
      match nth_error seq (Z.to_nat (Qfloor (x * len seq))) with
      | Some a => Ok a
      | None => Raise IndexError
      end
  end.

(** [itertools.accumulate(ws)] *)
Fixpoint accumulate_from (acc : Q) (ws : list Q) : list Q :=
  match ws with
  | [] => []
  | w :: ws' => (acc + w) :: accumulate_from (acc + w) ws'
  end.

Definition accumulate (ws : list Q) : list Q :=
  match ws with
  | [] => []
  | w :: ws' => w :: accumulate_from w ws'
  end.

(** [bisect.bisect_right(a, x, lo, hi)]: the binary search of the
    library, [fuel] bounding the number of halvings. *)
Fixpoint bisect (fuel : nat) (a : list Q) (x : Q) (lo hi : nat) : nat :=
  match fuel with
  | O => lo
  | S fuel' =>
      if (lo <? hi)%nat then
        let mid := ((lo + hi) / 2)%nat in
        if lt x (nth mid a 0) then bisect fuel' a x lo mid
        else bisect fuel' a x (S mid) hi
      else lo
  end.

(** [random.choices(population, weights=ws)[0]], after the library
    (CPython 3.9 and later).  The cumulative weights are computed first;
    a total that is not positive raises [ValueError]; otherwise the draw,
    scaled by the total, is located among the cumulative weights, the
    last index included as upper bound. *)
Definition choices {A} (x : Q) (population : list A) (ws : list Q)
  : result A :=
  let cum_weights := accumulate ws in
  let n := List.length population in
  if negb (List.length cum_weights =? n)%nat then Raise ValueError
  else
    match rev cum_weights with
    | [] => Raise IndexError
    | total :: _ =>
        if le total 0 then Raise ValueError
        else
          let hi := (n - 1)%nat in
          match nth_error population
                  (bisect (S n) cum_weights (x * total) 0 hi) with
          | Some a => Ok a
          | None => Raise IndexError
          end
    end.

End Rand.

(* ================================================================== *)
(** ** The program *)

Definition corpus_t : Type := dict (list string).
Definition ranks_t : Type := dict Q.

(** *** [crawl]

    Reading the directory and matching the anchor pattern are input; the
    function is embedded from the point where each file name comes with
    the list of [href] values found in it, in directory order. *)

(** Lines 21-26: the body of the first loop. *)
Definition add_file (pages : corpus_t) (file : string * list string)
  : corpus_t :=
  let '(filename, links) := file in
  if negb (endswith filename ".html") then pages
  else setitem pages filename (discard (set_of links) filename).

Definition crawl_extract (files : list (string * list string)) : corpus_t :=
  fold_left add_file files [].

Definition crawl_restrict (pages : corpus_t) : corpus_t :=
  map (fun '(filename, links) =>
         (filename, filter (fun link => contains pages link) links))
      pages.

Definition crawl (files : list (string * list string)) : corpus_t :=
  crawl_restrict (crawl_extract files).

(** *** [transition_model] *)

(** [corpus[page] if page in corpus else corpus.keys()] *)
Definition linked_pages_of (corpus : corpus_t) (page : string)
  : result (list string) :=
  if contains corpus page then getitem corpus page else Ok (keys corpus).

(** [damping_factor / len(linked_pages) if linked_pages else 0] *)
Definition link_prob_of (damping_factor : Q) (linked_pages : list string)
  : result Q :=
  match linked_pages with
  | [] => Ok 0
  | _ => div damping_factor (len linked_pages)
  end.

(** [transition_probabilities[p] += link_prob] *)
Definition add_link (link_prob : Q) (tp : ranks_t) (p : string)
  : result ranks_t :=
  v <- getitem tp p ;; Ok (setitem tp p (v + link_prob)).

Definition transition_model (corpus : corpus_t) (page : string)
  (damping_factor : Q) : result ranks_t :=
  linked_pages <- linked_pages_of corpus page ;;
  link_prob <- link_prob_of damping_factor linked_pages ;;
  random_prob <- div (1 - damping_factor) (len corpus) ;;
  let transition_probabilities :=
    fold_left (fun tp p => setitem tp p random_prob) (keys corpus) [] in
  for_each linked_pages (add_link link_prob) transition_probabilities.

(** *** [sample_pagerank]

    [n] is a Python integer; [range(n)] is empty when [n <= 0].  The
    state carried around the loop is the pair of the counters and the
    current page; iteration [i] consumes draw [S i] of the source, draw
    [0] having chosen the start page. *)

Definition sample_state : Type := (ranks_t * string)%type.

Definition sample_step (u : Rand.source) (corpus : corpus_t)
  (damping_factor : Q) (n : Z) (st : sample_state) (i : nat)
  : result sample_state :=
  let '(page_rank, current_page) := st in
  v <- getitem page_rank current_page ;;
  inc <- div 1 (inject_Z n) ;;
  let page_rank := setitem page_rank current_page (v + inc) in
  transition_probabilities <-
    transition_model corpus current_page damping_factor ;;
  next_page <- Rand.choices (u (S i)) (keys transition_probabilities)
                 (values transition_probabilities) ;;
  Ok (page_rank, next_page).

Definition sample_pagerank (u : Rand.source) (corpus : corpus_t)
  (damping_factor : Q) (n : Z) : result ranks_t :=
  let page_rank := map (fun page => (page, 0)) (keys corpus) in
  current_page <- Rand.choice (u O) (keys corpus) ;;
  st <- for_each (seq 0 (Z.to_nat n))
          (sample_step u corpus damping_factor n) (page_rank, current_page) ;;
  Ok (fst st).

(** *** [iterate_pagerank] *)

(** The body of [for page in corpus] on lines 108-113: the new rank of
    one page. *)
Definition new_rank (corpus : corpus_t) (damping_factor N : Q)
  (page_rank : ranks_t) (page : string) : result Q :=
  total <- div (1 - damping_factor) N ;;
  for_each corpus
    (fun total '(linking_page, linked_pages) =>
       if mem page linked_pages then
         r <- getitem page_rank linking_page ;;
         c <- div (damping_factor * r) (len linked_pages) ;;
         Ok (total + c)
       else Ok total)
    total.

(** Lines 104-115: one synchronous update of every rank. *)
Definition new_page_rank (corpus : corpus_t) (damping_factor N : Q)
  (page_rank : ranks_t) : result ranks_t :=
  for_each (keys corpus)
    (fun npr page =>
       total <- new_rank corpus damping_factor N page_rank page ;;
       Ok (setitem npr page total))
    [].

Definition tolerance : Q := 1 # 1000.

(** [all(... for page in corpus)], stopping at the first [False]. *)
Fixpoint all_pages (f : string -> result bool) (pages : list string)
  : result bool :=
  match pages with
  | [] => Ok true
  | page :: pages' =>
      b <- f page ;; if b : bool then all_pages f pages' else Ok false
  end.

(** Line 118: the convergence test. *)
Definition converged (corpus : corpus_t) (new_ranks page_rank : ranks_t)
  : result bool :=
  all_pages
    (fun page =>
       a <- getitem new_ranks page ;;
       b <- getitem page_rank page ;;
       Ok (lt (Qabs (a - b)) tolerance))
    (keys corpus).

(** The [while True] loop.  [None] means that the loop is still running
    after [fuel] iterations; [Some r] is the outcome of the call. *)
Fixpoint iterate_loop (fuel : nat) (corpus : corpus_t)
  (damping_factor N : Q) (page_rank : ranks_t) : option (result ranks_t) :=
  match fuel with
  | O => None
  | S fuel' =>
      match new_page_rank corpus damping_factor N page_rank with
      | Raise e => Some (Raise e)
      | Ok npr =>
          match converged corpus npr page_rank with
          | Raise e => Some (Raise e)
          | Ok true => Some (Ok page_rank)
          | Ok false => iterate_loop fuel' corpus damping_factor N npr
          end
      end
  end.

(** Line 100: the initial ranks. *)
Definition initial_rank (corpus : corpus_t) (N : Q) : result ranks_t :=
  comprehension (fun page => v <- div 1 N ;; Ok (page, v)) (keys corpus).

Definition iterate_pagerank (fuel : nat) (corpus : corpus_t)
  (damping_factor : Q) : option (result ranks_t) :=
  let N := len corpus in
  match initial_rank corpus N with
  | Raise e => Some (Raise e)
  | Ok page_rank => iterate_loop fuel corpus damping_factor N page_rank
  end.

(* ================================================================== *)
(** ** Vocabulary of the statements *)

(** The invariants of a graph as [crawl] builds it: keys are pairwise
    distinct and every link leads to a key. *)
Definition links_closed (corpus : corpus_t) : Prop :=
  forall page links link,
    In (page, links) corpus -> In link links -> In link (keys corpus).

Definition no_self_links (corpus : corpus_t) : Prop :=
  forall page links, In (page, links) corpus -> ~ In page links.

Definition wf_corpus (corpus : corpus_t) : Prop :=
  NoDup (keys corpus) /\ links_closed corpus.

(** The total mass of a mapping. *)
Definition total_mass (r : ranks_t) : Q :=
  fold_right Qplus 0 (values r).

(** The invariant of the sampling loop before iteration [i]: the
    counters cover the pages of the graph, none is negative, [i]
    increments of [1/n] have been handed out, and the walk stands on a
    page of the graph. *)
Definition sample_inv (corpus : corpus_t) (n : Z) (i : nat)
  (st : sample_state) : Prop :=
  keys (fst st) = keys corpus
  /\ In (snd st) (keys corpus)
  /\ Forall (fun v => 0 <= v) (values (fst st))
  /\ total_mass (fst st) == inject_Z (Z.of_nat i) / inject_Z n.

(** Finite sums. *)
Definition sumQ {A} (f : A -> Q) (xs : list A) : Q :=
  fold_right (fun x acc => f x + acc) 0 xs.

(** The mapping that sends each key [k] of [ks] to [r k]. *)
Definition tabulate (ks : list string) (r : string -> Q) : ranks_t :=
  map (fun k => (k, r k)) ks.

(** The value lines 108-113 compute for [page] from the ranks [r], as a
    function of the ranks alone. *)
Definition rank_formula (corpus : corpus_t) (damping_factor N : Q)
  (r : string -> Q) (page : string) : Q :=
  fold_left
    (fun total '(linking_page, linked_pages) =>
       if mem page linked_pages
       then total + damping_factor * r linking_page / len linked_pages
       else total)
    corpus ((1 - damping_factor) / N).

(** [k] synchronous updates. *)
Fixpoint updates (corpus : corpus_t) (damping_factor N : Q) (k : nat)
  (r : string -> Q) : string -> Q :=
  match k with
  | O => r
  | S k' =>
      updates corpus damping_factor N k' (rank_formula corpus damping_factor N r)
  end.

(** What one entry of the graph adds to the new rank of [p]. *)
Definition contribution (damping_factor : Q) (r : string -> Q) (p : string)
  (entry : string * list string) : Q :=
  if mem p (snd entry)
  then damping_factor * r (fst entry) / len (snd entry)
  else 0.

(** The distance between two rank functions over the pages of a graph. *)
Definition dist (corpus : corpus_t) (r s : string -> Q) : Q :=
  sumQ (fun p => Qabs (r p - s p)) (keys corpus).

(** The convergence test on rank functions. *)
Definition close_enough (corpus : corpus_t) (r' r : string -> Q) : bool :=
  forallb (fun p => lt (Qabs (r' p - r p)) tolerance) (keys corpus).

Fixpoint qpow (d : Q) (k : nat) : Q :=
  match k with
  | O => 1
  | S k' => d * qpow d k'
  end.

(** Example graphs. *)
Definition one_sink : corpus_t := [("A", [])].
Definition link_to_sink : corpus_t := [("A", ["B"]); ("B", [])].
Definition two_into_one : corpus_t :=
  [("A", ["B"]); ("B", ["A"]); ("C", ["A"])].

(** With damping 1 on [two_into_one] the ranks of [A] and [B] swap at
    every update, one third apart. *)
Definition swapping (r : string -> Q) : Prop :=
  (r "A" == 1 # 3 /\ r "B" == 1 # 3 /\ r "C" == 1 # 3)
  \/ (r "A" == 2 # 3 /\ r "B" == 1 # 3 /\ r "C" == 0)
  \/ (r "A" == 1 # 3 /\ r "B" == 2 # 3 /\ r "C" == 0).

(** *** [select_folder]

    The constants of lines 8-9 and the callback of the button.  The
    answer of the directory dialog is [folder_path], the empty string
    when the dialog is cancelled; [listing] gives, for a directory, its
    files with the links found in them.  The outcome is the pair of
    rankings handed to [display_results]; [Ok None] means that nothing
    is computed. *)

Definition DAMPING : Q := 17 # 20.
Definition SAMPLES : Z := 10000.

Definition select_folder (fuel : nat) (u : Rand.source)
  (listing : string -> list (string * list string)) (folder_path : string)
  : option (result (option (ranks_t * ranks_t))) :=
  if String.eqb folder_path "" then Some (Ok None)
  else
    let corpus := crawl (listing folder_path) in
    match sample_pagerank u corpus DAMPING SAMPLES with
    | Raise e => Some (Raise e)
    | Ok ranks_sampling =>
        match iterate_pagerank fuel corpus DAMPING with
        | None => None
        | Some (Raise e) => Some (Raise e)
        | Some (Ok ranks_iteration) =>
            Some (Ok (Some (ranks_sampling, ranks_iteration)))
        end
    end.

(** Link collections are sets: no link is listed twice. *)
Definition links_nodup (corpus : corpus_t) : Prop :=
  forall page links, In (page, links) corpus -> NoDup links.

(** How often [k] occurs in [linked], as a number. *)
Definition occurrences (linked : list string) (k : string) : Q :=
  inject_Z (Z.of_nat (count_occ string_dec linked k)).

(** A directory of three files, one of them not a page. *)
Definition example_files : list (string * list string) :=
  [("a.html", ["b.html"; "a.html"; "x.html"; "b.html"]);
   ("b.html", ["b.html"; "http://example.org"]);
   ("notes.txt", ["a.html"])].

(** A mapping that is not a graph: the link of [A] leads nowhere. *)
Definition dangling : corpus_t := [("A", ["Z"])].

(* ================================================================== *)
(** ** The program over an arithmetic

    The estimators once more, with the numbers and their operations as
    a parameter: what is proved of [Generic] holds of binary64, the
    arithmetic of the Python program, operation for operation.  Every
    division of the program divides by an integer ([len(...)], [n],
    [N]); its zero test is made on that integer. *)

Record arith : Type := Arith {
  number : Type;
  of_int : Z -> number;
  n_add : number -> number -> number;
  n_sub : number -> number -> number;
  n_mul : number -> number -> number;
  n_div : number -> number -> number;
  n_abs : number -> number;
  n_lt : number -> number -> bool;
  n_le : number -> number -> bool;
  n_finite : number -> bool;
  n_tolerance : number
}.

(** Exact rationals. *)
Definition exact : arith :=
  {| number := Q; of_int := inject_Z;
     n_add := Qplus; n_sub := Qminus; n_mul := Qmult; n_div := Qdiv;
     n_abs := Qabs; n_lt := Py.lt; n_le := Py.le;
     n_finite := fun _ => true; n_tolerance := 1 # 1000 |}.

(** [float(z)], for an integer below 2^63 in absolute value. *)
Definition float_of_int (z : Z) : float :=
  match z with
  | Z0 => 0%float
  | Zpos _ => PrimFloat.of_uint63 (Uint63.of_Z z)
  | Zneg p => PrimFloat.opp (PrimFloat.of_uint63 (Uint63.of_Z (Zpos p)))
  end.

(** IEEE 754 binary64 with rounding to nearest, ties to even: the
    [float] of Python.  The tolerance is the double nearest to 0.001. *)
Definition binary64 : arith :=
  {| number := float; of_int := float_of_int;
     n_add := PrimFloat.add; n_sub := PrimFloat.sub;
     n_mul := PrimFloat.mul; n_div := PrimFloat.div;
     n_abs := PrimFloat.abs; n_lt := PrimFloat.ltb; n_le := PrimFloat.leb;
     n_finite := PrimFloat.is_finite;
     n_tolerance := 0x1.0624dd2f1a9fcp-10%float |}.

(** [len(xs)] as an integer. *)
Definition size {X} (xs : list X) : Z := Z.of_nat (List.length xs).

Module Generic.

Section Program.

Variable A : arith.

Definition ranks : Type := dict (number A).

(** [a / k] for an integer [k]. *)
Definition div_int (a : number A) (k : Z) : result (number A) :=
  if (k =? 0)%Z then Raise ZeroDivisionError
  else Ok (n_div A a (of_int A k)).

(** *** [transition_model] *)

Definition link_prob_of (damping_factor : number A)
  (linked_pages : list string) : result (number A) :=
  match linked_pages with
  | [] => Ok (of_int A 0)
  | _ => div_int damping_factor (size linked_pages)
  end.

Definition add_link (link_prob : number A) (tp : ranks) (p : string)
  : result ranks :=
  v <- getitem tp p ;; Ok (setitem tp p (n_add A v link_prob)).

Definition transition_model (corpus : corpus_t) (page : string)
  (damping_factor : number A) : result ranks :=
  linked_pages <- linked_pages_of corpus page ;;
  link_prob <- link_prob_of damping_factor linked_pages ;;
  random_prob <- div_int (n_sub A (of_int A 1) damping_factor) (size corpus) ;;
  let transition_probabilities :=
    fold_left (fun tp p => setitem tp p random_prob) (keys corpus) [] in
  for_each linked_pages (add_link link_prob) transition_probabilities.

(** *** The random source

    [start] is the integer drawn for the start page, [draws i] the value
    of the [i]-th call of [random()]. *)

Record source : Type := Source {
  start : nat;
  draws : nat -> number A
}.

(** [random.choice(seq)]: the element at an index drawn below
    [len(seq)]. *)
Definition choice {X} (k : nat) (seq : list X) : result X :=
  match seq with
  | [] => Raise IndexError
  | _ =>
      match nth_error seq (k mod List.length seq) with
      | Some a => Ok a
      | None => Raise IndexError
      end
  end.

Fixpoint accumulate_from (acc : number A) (ws : list (number A))
  : list (number A) :=
  match ws with
  | [] => []
  | w :: ws' => n_add A acc w :: accumulate_from (n_add A acc w) ws'
  end.

Definition accumulate (ws : list (number A)) : list (number A) :=
  match ws with
  | [] => []
  | w :: ws' => w :: accumulate_from w ws'
  end.

Fixpoint bisect (fuel : nat) (a : list (number A)) (x : number A)
  (lo hi : nat) : nat :=
  match fuel with
  | O => lo
  | S fuel' =>
      if (lo <? hi)%nat then
        let mid := ((lo + hi) / 2)%nat in
        if n_lt A x (nth mid a (of_int A 0)) then bisect fuel' a x lo mid
        else bisect fuel' a x (S mid) hi
      else lo
  end.

(** [random.choices(population, weights=ws)[0]] (CPython 3.9 and
    later): a total weight that is not positive, or not finite, raises
    [ValueError]. *)
Definition choices {X} (x : number A) (population : list X)
  (ws : list (number A)) : result X :=
  let cum_weights := accumulate ws in
  let n := List.length population in
  if negb (List.length cum_weights =? n)%nat then Raise ValueError
  else
    match rev cum_weights with
    | [] => Raise IndexError
    | last :: _ =>
        let total := n_add A last (of_int A 0) in
        if n_le A total (of_int A 0) then Raise ValueError
        else if negb (n_finite A total) then Raise ValueError
        else
          let hi := (n - 1)%nat in
          match nth_error population
                  (bisect (S n) cum_weights (n_mul A x total) 0 hi) with
          | Some a => Ok a
          | None => Raise IndexError
          end
    end.

(** *** [sample_pagerank] *)

(** Lines 82-83: the page drawn after [page] in iteration [i]. *)
Definition next_page (src : source) (corpus : corpus_t)
  (damping_factor : number A) (i : nat) (page : string) : result string :=
  transition_probabilities <- transition_model corpus page damping_factor ;;
  choices (draws src (S i)) (keys transition_probabilities)
    (values transition_probabilities).

Definition sample_step (src : source) (corpus : corpus_t)
  (damping_factor : number A) (n : Z) (st : ranks * string) (i : nat)
  : result (ranks * string) :=
  let '(page_rank, current_page) := st in
  v <- getitem page_rank current_page ;;
  inc <- div_int (of_int A 1) n ;;
  let page_rank := setitem page_rank current_page (n_add A v inc) in
  next <- next_page src corpus damping_factor i current_page ;;
  Ok (page_rank, next).

Definition sample_pagerank (src : source) (corpus : corpus_t)
  (damping_factor : number A) (n : Z) : result ranks :=
  let page_rank := map (fun page => (page, of_int A 0)) (keys corpus) in
  current_page <- choice (start src) (keys corpus) ;;
  st <- for_each (seq 0 (Z.to_nat n))
          (sample_step src corpus damping_factor n) (page_rank, current_page) ;;
  Ok (fst st).

(** *** [iterate_pagerank] *)

Definition new_rank (corpus : corpus_t) (damping_factor : number A) (N : Z)
  (page_rank : ranks) (page : string) : result (number A) :=
  total <- div_int (n_sub A (of_int A 1) damping_factor) N ;;
  for_each corpus
    (fun total '(linking_page, linked_pages) =>
       if mem page linked_pages then
         r <- getitem page_rank linking_page ;;
         c <- div_int (n_mul A damping_factor r) (size linked_pages) ;;
         Ok (n_add A total c)
       else Ok total)
    total.

Definition new_page_rank (corpus : corpus_t) (damping_factor : number A)
  (N : Z) (page_rank : ranks) : result ranks :=
  for_each (keys corpus)
    (fun npr page =>
       total <- new_rank corpus damping_factor N page_rank page ;;
       Ok (setitem npr page total))
    [].

(** Line 118, for one page. *)
Definition close (a b : number A) : bool :=
  n_lt A (n_abs A (n_sub A a b)) (n_tolerance A).

Definition converged (corpus : corpus_t) (new_ranks page_rank : ranks)
  : result bool :=
  all_pages
    (fun page =>
       a <- getitem new_ranks page ;;
       b <- getitem page_rank page ;;
       Ok (close a b))
    (keys corpus).

Fixpoint iterate_loop (fuel : nat) (corpus : corpus_t)
  (damping_factor : number A) (N : Z) (page_rank : ranks)
  : option (result ranks) :=
  match fuel with
  | O => None
  | S fuel' =>
      match new_page_rank corpus damping_factor N page_rank with
      | Raise e => Some (Raise e)
      | Ok npr =>
          match converged corpus npr page_rank with
          | Raise e => Some (Raise e)
          | Ok true => Some (Ok page_rank)
          | Ok false => iterate_loop fuel' corpus damping_factor N npr
          end
      end
  end.

Definition initial_rank (corpus : corpus_t) (N : Z) : result ranks :=
  comprehension (fun page => v <- div_int (of_int A 1) N ;; Ok (page, v))
    (keys corpus).

Definition iterate_pagerank (fuel : nat) (corpus : corpus_t)
  (damping_factor : number A) : option (result ranks) :=
  let N := size corpus in
  match initial_rank corpus N with
  | Raise e => Some (Raise e)
  | Ok page_rank => iterate_loop fuel corpus damping_factor N page_rank
  end.

(** *** Vocabulary *)

(** The mapping that sends each key [k] of [ks] to [r k]. *)
Definition tabulate (ks : list string) (r : string -> number A) : ranks :=
  map (fun k => (k, r k)) ks.

(** The value lines 108-113 compute for [page], with the operations in
    the order of the program. *)
Definition rank_formula (corpus : corpus_t) (damping_factor : number A)
  (N : Z) (r : string -> number A) (page : string) : number A :=
  fold_left
    (fun total '(linking_page, linked_pages) =>
       if mem page linked_pages
       then n_add A total
              (n_div A (n_mul A damping_factor (r linking_page))
                 (of_int A (size linked_pages)))
       else total)
    corpus (n_div A (n_sub A (of_int A 1) damping_factor) (of_int A N)).

(** The ranks before iteration [k] of the loop. *)
Fixpoint ranks_at (corpus : corpus_t) (damping_factor : number A) (k : nat)
  : string -> number A :=
  match k with
  | O => fun _ => n_div A (of_int A 1) (of_int A (size corpus))
  | S k' =>
      rank_formula corpus damping_factor (size corpus)
        (ranks_at corpus damping_factor k')
  end.

(** The test of line 118 in iteration [k]. *)
Definition passes (corpus : corpus_t) (damping_factor : number A) (k : nat)
  : bool :=
  forallb
    (fun p =>
       close (ranks_at corpus damping_factor (S k) p)
         (ranks_at corpus damping_factor k p))
    (keys corpus).




(** What [iterate_pagerank] returns: the ranks [page_rank] before some
    iteration [j]; the update computed from them in that iteration, which
    is not returned, passes the test of line 118 at every page. *)
Definition stopped_on (corpus : corpus_t) (damping_factor : number A)
  (page_rank : ranks) : Prop :=
  let N := size corpus in
  keys page_rank = keys corpus
  /\ exists j npr,
       page_rank = tabulate (keys corpus) (ranks_at corpus damping_factor j)
       /\ new_page_rank corpus damping_factor N page_rank = Ok npr
       /\ converged corpus npr page_rank = Ok true
       /\ forall p,
            In p (keys corpus) ->
            exists a b,
              lookup npr p = Some a /\ lookup page_rank p = Some b
              /\ a = rank_formula corpus damping_factor N
                       (ranks_at corpus damping_factor j) p
              /\ b = ranks_at corpus damping_factor j p
              /\ n_lt A (n_abs A (n_sub A a b)) (n_tolerance A) = true.

End Program.

End Generic.

Arguments Generic.Source {A} start draws.

(** The double nearest to 0.85, the largest double below 1, and a
    source whose every draw is 0.5. *)
Definition d085 : float := 0x1.b333333333333p-1%float.
Definition below_one : float := 0x1.fffffffffffffp-1%float.
Definition halves : Generic.source binary64 :=
  Generic.Source (A := binary64) 0 (fun _ => 0.5%float).

(** A cycle of three pages with a fourth page linking into it. *)
Definition fed_cycle : corpus_t :=
  [("A", ["B"]); ("B", ["C"]); ("C", ["A"]); ("D", ["A"])].

(** A page without links that every other page links to, and the double
    nearest to 0.003. *)
Definition fed_sink : corpus_t :=
  [("A", ["B"; "C"; "D"]); ("B", []); ("C", ["B"]); ("D", ["B"])].
Definition d003 : float := 0x1.89374bc6a7efap-9%float.

(** The rational number a finite double stands for. *)
Definition exact_value (x : float) : option Q :=
  match Prim2SF x with
  | S754_zero _ => Some 0
  | S754_finite s m e =>
      Some (Qred (inject_Z (if s then Zneg m else Zpos m) * 2 ^ e))
  | _ => None
  end.

(** The ranks of a mapping of doubles, as rational numbers (0 where the
    mapping has no finite value). *)
Definition exact_rank (page_rank : Generic.ranks binary64) (p : string) : Q :=
  match lookup page_rank p with
  | Some v => match exact_value v with Some q => q | None => 0 end
  | None => 0
  end.

(* ================================================================== *)
(** ** Dictionaries and sets *)

Section DictFacts.

Context {V : Type}.
Implicit Types (d : dict V) (k : string) (v : V).

Lemma lookup_some_in d k v : lookup d k = Some v -> In (k, v) d.
Proof.
  induction d as [|[k' v'] d IH]; simpl; [discriminate|].
  destruct (String.eqb_spec k k') as [->|_].
  - intros [= ->]. now left.
  - intros H. right. auto.
Qed.

Lemma lookup_none_iff d k : lookup d k = None <-> ~ In k (keys d).
Proof.
  induction d as [|[k' v'] d IH]; simpl; [tauto|].
  destruct (String.eqb_spec k k') as [->|Hne].
  - split; [discriminate|]. intros H. exfalso. apply H. now left.
  - rewrite IH. split; intros H; [intros [E|I]; [congruence|tauto]|tauto].
Qed.

Lemma contains_iff d k : contains d k = true <-> In k (keys d).
Proof.
  unfold contains. destruct (lookup d k) eqn:E.
  - split; [intros _|reflexivity].
    apply lookup_some_in in E. now apply (in_map fst) in E.
  - apply lookup_none_iff in E. split; [discriminate|tauto].
Qed.

Lemma getitem_in d k : In k (keys d) -> exists v, getitem d k = Ok v.
Proof.
  intros H. unfold getitem. destruct (lookup d k) eqn:E; [eauto|].
  apply lookup_none_iff in E. tauto.
Qed.

Lemma getitem_ok d k v : getitem d k = Ok v <-> lookup d k = Some v.
Proof.
  unfold getitem. destruct (lookup d k); split; congruence.
Qed.

Lemma keys_setitem_in d k v :
  In k (keys d) -> keys (setitem d k v) = keys d.
Proof.
  induction d as [|[k' v'] d IH]; simpl; [tauto|].
  destruct (String.eqb_spec k k') as [->|Hne]; [reflexivity|].
  intros [E|I]; [congruence|]. simpl. f_equal. auto.
Qed.

Lemma keys_setitem_new d k v :
  ~ In k (keys d) -> keys (setitem d k v) = keys d ++ [k].
Proof.
  induction d as [|[k' v'] d IH]; simpl; [reflexivity|].
  destruct (String.eqb_spec k k') as [->|Hne]; [tauto|].
  intros H. simpl. f_equal. apply IH. tauto.
Qed.

Lemma in_keys_setitem d k v k' :
  In k' (keys (setitem d k v)) <-> k' = k \/ In k' (keys d).
Proof.
  destruct (in_dec string_dec k (keys d)) as [I|NI].
  - rewrite keys_setitem_in by assumption.
    split; [tauto|]. intros [->|H]; assumption.
  - rewrite keys_setitem_new by assumption. rewrite in_app_iff. simpl.
    split; [intros [H|[H|[]]]; auto|intros [H|H]; auto].
Qed.

Lemma in_setitem d k v k' v' :
  In (k', v') (setitem d k v) -> (k', v') = (k, v) \/ In (k', v') d.
Proof.
  induction d as [|[k0 v0] d IH]; simpl.
  - intros [H|[]]. left. now symmetry.
  - destruct (String.eqb_spec k k0) as [->|Hne]; simpl.
    + intros [H|H]; [left; now symmetry|right; now right].
    + intros [H|H]; [right; now left|].
      destruct (IH H); [now left|right; now right].
Qed.

Lemma NoDup_keys_setitem d k v :
  NoDup (keys d) -> NoDup (keys (setitem d k v)).
Proof.
  intros H. destruct (in_dec string_dec k (keys d)) as [I|NI].
  - now rewrite keys_setitem_in.
  - rewrite keys_setitem_new by assumption.
    apply NoDup_app; [assumption|repeat constructor; auto|].
    intros x Hx [<-|[]]. contradiction.
Qed.

(** Filling an empty dictionary along a list of distinct keys lays the
    entries out in the order of the list. *)
Lemma fill_distinct (f : string -> V) (ks : list string) d :
  NoDup (keys d ++ ks) ->
  fold_left (fun acc k => setitem acc k (f k)) ks d
  = d ++ map (fun k => (k, f k)) ks.
Proof.
  revert d. induction ks as [|k ks IH]; intros d H; simpl.
  - now rewrite app_nil_r.
  - assert (NI : ~ In k (keys d)).
    { apply NoDup_remove_2 in H. rewrite in_app_iff in H. tauto. }
    assert (E : setitem d k (f k) = d ++ [(k, f k)]).
    { clear -NI. induction d as [|[k' v'] d IHd]; simpl; [reflexivity|].
      simpl in NI. destruct (String.eqb_spec k k') as [->|_]; [tauto|].
      f_equal. apply IHd. tauto. }
    rewrite E, IH.
    + now rewrite <- app_assoc.
    + unfold keys in *. rewrite map_app. simpl. rewrite <- app_assoc. exact H.
Qed.

End DictFacts.

Lemma mem_iff x s : mem x s = true <-> In x s.
Proof.
  unfold mem. rewrite existsb_exists. split.
  - intros [y [Hy E]]. apply String.eqb_eq in E. now subst.
  - intros H. exists x. split; [assumption|apply String.eqb_refl].
Qed.

Lemma in_discard s x y : In y (discard s x) <-> In y s /\ y <> x.
Proof.
  unfold discard. rewrite filter_In, negb_true_iff, String.eqb_neq. tauto.
Qed.

(* ================================================================== *)
(** ** [crawl] *)

Section Crawl.

Lemma crawl_extract_fold files :
  crawl_extract files = fold_left add_file files [].
Proof. reflexivity. Qed.

Lemma add_file_inv pages file :
  NoDup (keys pages) /\ no_self_links pages ->
  NoDup (keys (add_file pages file)) /\ no_self_links (add_file pages file).
Proof.
  destruct file as [filename links]. intros [ND NS]. unfold add_file.
  destruct (endswith filename ".html"); simpl; [|now split].
  split; [now apply NoDup_keys_setitem|].
  intros page ls Hin. apply in_setitem in Hin as [[= -> ->]|Hin].
  - rewrite in_discard. tauto.
  - now apply NS.
Qed.

Lemma fold_add_file_inv files pages :
  NoDup (keys pages) /\ no_self_links pages ->
  NoDup (keys (fold_left add_file files pages))
  /\ no_self_links (fold_left add_file files pages).
Proof.
  revert pages. induction files as [|file files IH]; intros pages H; simpl.
  - exact H.
  - apply IH. now apply add_file_inv.
Qed.

Lemma fold_add_file_keeps files pages k :
  In k (keys pages) -> In k (keys (fold_left add_file files pages)).
Proof.
  revert pages. induction files as [|[filename links] files IH];
    intros pages H; simpl; [assumption|].
  apply IH. destruct (endswith filename ".html"); simpl; [|assumption].
  apply in_keys_setitem. now right.
Qed.

Lemma fold_add_file_adds files pages filename links :
  In (filename, links) files -> endswith filename ".html" = true ->
  In filename (keys (fold_left add_file files pages)).
Proof.
  revert pages. induction files as [|file files IH]; intros pages Hin E;
    [destruct Hin|destruct Hin as [->|Hin]].
  - simpl. apply fold_add_file_keeps. rewrite E. simpl.
    apply in_keys_setitem. now left.
  - simpl. now apply IH.
Qed.

Lemma keys_crawl_restrict pages : keys (crawl_restrict pages) = keys pages.
Proof.
  unfold crawl_restrict, keys. rewrite map_map.
  apply map_ext. now intros [filename links].
Qed.

Lemma in_crawl_restrict pages filename links :
  In (filename, links) (crawl_restrict pages) ->
  exists raw, In (filename, raw) pages
              /\ links = filter (fun link => contains pages link) raw.
Proof.
  unfold crawl_restrict. rewrite in_map_iff.
  intros [[f raw] [[= <- <-] Hin]]. eauto.
Qed.

Lemma crawl_wf files : wf_corpus (crawl files).
Proof.
  unfold crawl. split.
  - rewrite keys_crawl_restrict, crawl_extract_fold.
    apply fold_add_file_inv. split; [constructor|intros ? ? []].
  - intros page links link Hin Hl.
    apply in_crawl_restrict in Hin as [raw [_ ->]].
    apply filter_In in Hl as [_ Hc].
    rewrite keys_crawl_restrict. now apply contains_iff.
Qed.

Lemma crawl_no_self_links files : no_self_links (crawl files).
Proof.
  intros page links Hin.
  apply in_crawl_restrict in Hin as [raw [Hin ->]].
  rewrite filter_In. intros [H _]. revert H.
  rewrite crawl_extract_fold in Hin.
  refine (proj2 (fold_add_file_inv files [] _) page raw Hin).
  split; [constructor|intros ? ? []].
Qed.

Lemma crawl_keeps_every_page files filename links :
  In (filename, links) files -> endswith filename ".html" = true ->
  In filename (keys (crawl files)).
Proof.
  intros Hin E. unfold crawl.
  rewrite keys_crawl_restrict, crawl_extract_fold.
  now apply fold_add_file_adds with links.
Qed.

End Crawl.

(* ================================================================== *)
(** ** Arithmetic of the run-time *)

Lemma len_cons {A} (x : A) xs : len (x :: xs) == len xs + 1.
Proof.
  unfold len. cbn [List.length]. rewrite Nat2Z.inj_succ.
  unfold Z.succ. now rewrite inject_Z_plus.
Qed.

Lemma len_nonneg {A} (xs : list A) : 0 <= len xs.
Proof.
  unfold len. change 0 with (inject_Z 0). rewrite <- Zle_Qle. lia.
Qed.

Lemma len_pos {A} (xs : list A) : xs <> [] -> 0 < len xs.
Proof.
  destruct xs as [|x xs]; [congruence|]. intros _.
  rewrite len_cons. pose proof (len_nonneg xs). lra.
Qed.

Lemma len_map {A B} (f : A -> B) xs : len (map f xs) = len xs.
Proof. unfold len. now rewrite length_map. Qed.

Lemma div_ok a b : ~ b == 0 -> div a b = Ok (a / b).
Proof.
  intros H. unfold div. destruct (Qeq_bool b 0) eqn:E; [|reflexivity].
  apply Qeq_bool_iff in E. contradiction.
Qed.

Lemma lt_iff a b : lt a b = true <-> a < b.
Proof.
  unfold lt. rewrite Qlt_alt. destruct (a ?= b); split; congruence.
Qed.

Lemma lt_false_iff a b : lt a b = false <-> b <= a.
Proof.
  rewrite <- not_true_iff_false, lt_iff. split; [apply Qnot_lt_le|apply Qle_not_lt].
Qed.

Lemma le_iff a b : le a b = true <-> a <= b.
Proof. apply Qle_bool_iff. Qed.

(** ** Total mass *)

Lemma total_mass_cons k v (r : ranks_t) :
  total_mass ((k, v) :: r) = v + total_mass r.
Proof. reflexivity. Qed.

Lemma total_mass_const (ks : list string) c :
  total_mass (map (fun k => (k, c)) ks) == len ks * c.
Proof.
  induction ks as [|k ks IH].
  { change (0 == 0 * c). lra. }
  cbn [map]. rewrite total_mass_cons, IH, len_cons. lra.
Qed.

Lemma total_mass_setitem (r : ranks_t) k v w :
  lookup r k = Some v ->
  total_mass (setitem r k w) == total_mass r + (w - v).
Proof.
  induction r as [|[k' v'] r IH]; simpl; [discriminate|].
  destruct (String.eqb_spec k k') as [->|_].
  - intros [= ->]. rewrite !total_mass_cons. lra.
  - intros H. rewrite !total_mass_cons, IH by assumption. lra.
Qed.

Lemma values_setitem_Forall (P : Q -> Prop) (r : ranks_t) k w :
  Forall P (values r) -> P w -> Forall P (values (setitem r k w)).
Proof.
  intros H Hw. induction r as [|[k' v'] r IH]; simpl.
  - now repeat constructor.
  - simpl in H. inversion H; subst.
    destruct (String.eqb k k'); simpl; constructor; auto.
Qed.

Lemma nonneg_le_total (r : ranks_t) :
  Forall (fun v => 0 <= v) (values r) ->
  Forall (fun v => v <= total_mass r) (values r).
Proof.
  induction r as [|[k v] r IH]; simpl; intros H; [constructor|].
  inversion H as [|? ? Hv Hr]; subst. specialize (IH Hr).
  assert (0 <= total_mass r).
  { clear -Hr. induction r as [|[k' v'] r IH]; [cbn; lra|].
    simpl in Hr. inversion Hr; subst. rewrite total_mass_cons.
    specialize (IH H2). lra. }
  constructor.
  - rewrite total_mass_cons. lra.
  - eapply Forall_impl; [|exact IH]. cbv beta. intros a Ha.
    rewrite total_mass_cons. lra.
Qed.

(* ================================================================== *)
(** ** [transition_model] *)

Section TransitionModel.

Variable corpus : corpus_t.
Variable damping_factor : Q.

(** The second loop (lines 58-59) succeeds when every linked page has
    an entry; it keeps the keys and adds [link_prob] once per link. *)
Lemma add_links_ok link_prob (linked : list string) :
  forall tp : ranks_t,
    incl linked (keys tp) ->
    exists tp',
      for_each linked (add_link link_prob) tp = Ok tp'
      /\ keys tp' = keys tp
      /\ total_mass tp' == total_mass tp + len linked * link_prob
      /\ (0 <= link_prob -> Forall (fun v => 0 <= v) (values tp) ->
          Forall (fun v => 0 <= v) (values tp')).
Proof.
  induction linked as [|p linked IH]; intros tp Hincl.
  - exists tp. repeat split; auto. change (len (@nil string)) with 0. lra.
  - assert (Hp : In p (keys tp)) by (apply Hincl; now left).
    destruct (getitem_in tp p Hp) as [v Hv].
    destruct (IH (setitem tp p (v + link_prob))) as [tp' [E [K [M P]]]].
    { intros x Hx. apply in_keys_setitem. right. apply Hincl. now right. }
    exists tp'. cbn [for_each]. unfold add_link at 1. rewrite Hv. cbn [bind].
    split; [exact E|]. split; [now rewrite K, keys_setitem_in|].
    apply getitem_ok in Hv. split.
    + rewrite M, total_mass_setitem by eassumption. rewrite len_cons. lra.
    + intros Hl Hnn. apply P; [assumption|].
      apply values_setitem_Forall; [assumption|].
      apply lookup_some_in in Hv. apply (in_map snd) in Hv.
      rewrite Forall_forall in Hnn. specialize (Hnn _ Hv). simpl in Hnn. lra.
Qed.

Hypothesis corpus_wf : wf_corpus corpus.
Hypothesis corpus_nonempty : corpus <> [].

Lemma len_corpus_nonzero : ~ len corpus == 0.
Proof. pose proof (len_pos corpus corpus_nonempty). lra. Qed.

Lemma linked_pages_incl page linked :
  linked_pages_of corpus page = Ok linked -> incl linked (keys corpus).
Proof.
  unfold linked_pages_of. destruct (contains corpus page).
  - intros H. apply getitem_ok, lookup_some_in in H.
    intros link Hl. exact (proj2 corpus_wf _ _ _ H Hl).
  - intros [= <-]. apply incl_refl.
Qed.

Lemma linked_pages_total page :
  exists linked, linked_pages_of corpus page = Ok linked.
Proof.
  unfold linked_pages_of. destruct (contains corpus page) eqn:E; [|eauto].
  apply contains_iff in E. now apply getitem_in.
Qed.

Lemma link_prob_total linked :
  exists link_prob,
    link_prob_of damping_factor linked = Ok link_prob
    /\ len linked * link_prob
       == (match linked with [] => 0 | _ => damping_factor end)
    /\ (0 <= damping_factor -> 0 <= link_prob).
Proof.
  destruct linked as [|p linked].
  - exists 0. cbn. repeat split; lra.
  - pose proof (len_pos (p :: linked) ltac:(discriminate)) as Hpos.
    exists (damping_factor / len (p :: linked)). unfold link_prob_of.
    rewrite div_ok by lra. split; [reflexivity|]. split.
    + field. lra.
    + intros Hd. apply Qle_shift_div_l; [assumption|lra].
Qed.

(** On a well-formed, non-empty graph the model never fails; the
    mapping it returns has the keys of the graph, and its total mass is
    [1] when the damping term is spread over some page and
    [1 - damping_factor] when the set of linked pages is empty. *)
Lemma transition_model_total page :
  exists linked tp,
    linked_pages_of corpus page = Ok linked
    /\ transition_model corpus page damping_factor = Ok tp
    /\ keys tp = keys corpus
    /\ total_mass tp
       == (1 - damping_factor)
          + (match linked with [] => 0 | _ => damping_factor end)
    /\ (0 <= damping_factor <= 1 -> Forall (fun v => 0 <= v) (values tp)).
Proof.
  destruct (linked_pages_total page) as [linked Hl].
  destruct (link_prob_total linked) as [lp [Hlp [Mlp Plp]]].
  pose proof len_corpus_nonzero as HN.
  pose proof (len_pos corpus corpus_nonempty) as HNpos.
  set (rp := (1 - damping_factor) / len corpus).
  set (base := map (fun k => (k, rp)) (keys corpus)).
  assert (Hbase : fold_left (fun tp p => setitem tp p rp) (keys corpus) []
                  = base).
  { apply (fill_distinct (fun _ => rp) (keys corpus) []).
    simpl. apply corpus_wf. }
  assert (Kbase : keys base = keys corpus).
  { unfold base, keys. rewrite map_map. simpl. apply map_id. }
  destruct (add_links_ok lp linked base) as [tp [E [K [M P]]]].
  { rewrite Kbase. now apply linked_pages_incl with page. }
  exists linked, tp. split; [assumption|].
  unfold transition_model. rewrite Hl. cbn [bind]. rewrite Hlp. cbn [bind].
  rewrite div_ok by assumption. cbn [bind]. fold rp. rewrite Hbase.
  split; [exact E|]. split; [congruence|]. split.
  - rewrite M, Mlp. unfold base. rewrite total_mass_const.
    unfold keys. rewrite len_map. unfold rp. field. lra.
  - intros [Hd0 Hd1]. apply P; [auto|].
    unfold base, values. rewrite map_map. simpl.
    apply Forall_forall. intros v Hv. apply in_map_iff in Hv as [k [<- _]].
    unfold rp. apply Qle_shift_div_l; [assumption|lra].
Qed.

End TransitionModel.

(* ================================================================== *)
(** ** The random source: what a draw can return *)

Section RandFacts.

Context {A : Type}.

Lemma choice_in x (seq : list A) a : Rand.choice x seq = Ok a -> In a seq.
Proof.
  unfold Rand.choice. destruct seq as [|b seq]; [discriminate|].
  destruct (nth_error _ _) eqn:E; [|discriminate].
  intros [= <-]. eapply nth_error_In; eassumption.
Qed.

Lemma choice_ok x (seq : list A) :
  seq <> [] -> 0 <= x /\ x < 1 -> exists a, Rand.choice x seq = Ok a.
Proof.
  intros Hne [H0 H1]. pose proof (len_pos seq Hne) as Hpos.
  assert (Hidx : (Z.to_nat (Qfloor (x * len seq)) < List.length seq)%nat).
  { assert (Hlt : (Qfloor (x * len seq) < Z.of_nat (List.length seq))%Z).
    { rewrite Zlt_Qlt. fold (len seq).
      apply Qle_lt_trans with (x * len seq); [apply Qfloor_le|]. nra. }
    assert (Hge : (0 <= Qfloor (x * len seq))%Z).
    { change 0%Z with (Qfloor 0). apply Qfloor_resp_le. nra. }
    lia. }
  apply nth_error_Some in Hidx. unfold Rand.choice.
  destruct seq as [|b seq]; [congruence|].
  destruct (nth_error _ _); [eauto|congruence].
Qed.

Lemma choices_in x (population : list A) ws a :
  Rand.choices x population ws = Ok a -> In a population.
Proof.
  unfold Rand.choices. destruct (negb _); [discriminate|].
  destruct (rev _) as [|total rest]; [discriminate|].
  destruct (le total 0); [discriminate|].
  destruct (nth_error _ _) eqn:E; [|discriminate].
  intros [= <-]. eapply nth_error_In; eassumption.
Qed.

End RandFacts.

Lemma bisect_range fuel a x :
  forall lo hi, (lo <= hi)%nat ->
    (lo <= Rand.bisect fuel a x lo hi <= hi)%nat.
Proof.
  induction fuel as [|fuel IH]; intros lo hi H; cbn [Rand.bisect]; [lia|].
  destruct (Nat.ltb_spec lo hi) as [Hlt|Hge]; [|lia].
  assert (Hmid : (lo <= (lo + hi) / 2 < hi)%nat).
  { split; [apply Nat.div_le_lower_bound; lia|apply Nat.Div0.div_lt_upper_bound; lia]. }
  destruct (lt x _).
  - specialize (IH lo ((lo + hi) / 2)%nat). lia.
  - specialize (IH (S ((lo + hi) / 2)) hi). lia.
Qed.

(** The binary search is finished well before the fuel given to it by
    [Rand.choices] is used up. *)
Lemma bisect_fuel_stable fuel a x :
  forall lo hi, (hi - lo < fuel)%nat ->
    Rand.bisect (S fuel) a x lo hi = Rand.bisect fuel a x lo hi.
Proof.
  induction fuel as [|fuel IH]; intros lo hi H; [lia|].
  cbn [Rand.bisect]. destruct (Nat.ltb_spec lo hi) as [Hlt|Hge]; [|reflexivity].
  assert (Hmid : (lo <= (lo + hi) / 2 < hi)%nat).
  { split; [apply Nat.div_le_lower_bound; lia|apply Nat.Div0.div_lt_upper_bound; lia]. }
  destruct (lt x _).
  - apply (IH lo ((lo + hi) / 2)%nat). lia.
  - apply (IH (S ((lo + hi) / 2)) hi). lia.
Qed.

Lemma length_accumulate_from acc ws :
  List.length (Rand.accumulate_from acc ws) = List.length ws.
Proof.
  revert acc. induction ws as [|w ws IH]; intros acc; simpl; auto.
Qed.

Lemma length_accumulate ws : List.length (Rand.accumulate ws) = List.length ws.
Proof.
  destruct ws as [|w ws]; simpl; [reflexivity|].
  now rewrite length_accumulate_from.
Qed.

Lemma last_accumulate_from ws :
  forall acc, exists total rest,
    rev (acc :: Rand.accumulate_from acc ws) = total :: rest
    /\ total == acc + fold_right Qplus 0 ws.
Proof.
  induction ws as [|w ws IH]; intros acc.
  - exists acc, []. split; [reflexivity|]. simpl. lra.
  - destruct (IH (acc + w)) as [total [rest [E T]]].
    exists total, (rest ++ [acc]). split.
    + cbn [Rand.accumulate_from]. change (rev (acc :: ?l)) with (rev l ++ [acc]).
      now rewrite E.
    + rewrite T. simpl. lra.
Qed.

Lemma last_accumulate w ws :
  exists total rest,
    rev (Rand.accumulate (w :: ws)) = total :: rest
    /\ total == fold_right Qplus 0 (w :: ws).
Proof.
  destruct (last_accumulate_from ws w) as [total [rest [E T]]].
  exists total, rest. split; [exact E|]. rewrite T. reflexivity.
Qed.

Lemma choices_ok {A} x (population : list A) ws :
  population <> [] -> List.length ws = List.length population ->
  0 < fold_right Qplus 0 ws ->
  exists a, Rand.choices x population ws = Ok a.
Proof.
  intros Hne Hlen Hpos. unfold Rand.choices.
  rewrite length_accumulate, Hlen, Nat.eqb_refl. cbn [negb].
  destruct ws as [|w ws]; [destruct population; [congruence|discriminate]|].
  destruct (last_accumulate w ws) as [total [rest [E T]]]. rewrite E.
  destruct (le total 0) eqn:L.
  { apply le_iff in L. rewrite T in L. lra. }
  set (n := List.length population).
  pose proof (bisect_range (S n) (Rand.accumulate (w :: ws)) (x * total)
                0 (n - 1) ltac:(lia)) as [_ Hhi].
  assert (Hn : (0 < n)%nat).
  { unfold n. destruct population; [congruence|simpl; lia]. }
  destruct (nth_error population _) eqn:N; [eauto|].
  apply nth_error_None in N. fold n in N. lia.
Qed.

(* ================================================================== *)
(** ** [sample_pagerank] *)

Section Sampling.

Variable u : Rand.source.
Variable corpus : corpus_t.
Variable damping_factor : Q.
Variable n : Z.

Hypothesis corpus_wf : wf_corpus corpus.
Hypothesis corpus_nonempty : corpus <> [].
Hypothesis n_positive : (0 < n)%Z.

Lemma n_pos_Q : 0 < inject_Z n.
Proof. change 0 with (inject_Z 0). now rewrite <- Zlt_Qlt. Qed.

(** One iteration, up to the weighted draw. *)
Lemma sample_step_spec i st :
  sample_inv corpus n i st ->
  exists page_rank linked tp,
    sample_inv corpus n (S i) (page_rank, snd st)
    /\ linked_pages_of corpus (snd st) = Ok linked
    /\ keys tp = keys corpus
    /\ total_mass tp
       == (1 - damping_factor)
          + (match linked with [] => 0 | _ => damping_factor end)
    /\ sample_step u corpus damping_factor n st i
       = (next_page <- Rand.choices (u (S i)) (keys tp) (values tp) ;;
          Ok (page_rank, next_page)).
Proof.
  pose proof n_pos_Q as n_pos_Q.
  destruct st as [pr cur]. intros [K [C [P M]]]. simpl in K, C, P, M.
  assert (Hcur : In cur (keys pr)) by now rewrite K.
  destruct (getitem_in pr cur Hcur) as [v Hv].
  destruct (transition_model_total corpus damping_factor corpus_wf
              corpus_nonempty cur) as [linked [tp [Hl [Htp [Ktp [Mtp _]]]]]].
  exists (setitem pr cur (v + 1 / inject_Z n)), linked, tp.
  split; [|split; [assumption|split; [assumption|split; [assumption|]]]].
  - apply getitem_ok in Hv. repeat split; cbn [fst snd].
    + now rewrite keys_setitem_in.
    + assumption.
    + apply values_setitem_Forall; [assumption|].
      apply lookup_some_in in Hv. apply (in_map snd) in Hv.
      rewrite Forall_forall in P. specialize (P _ Hv). simpl in P.
      assert (0 <= 1 / inject_Z n) by (apply Qle_shift_div_l; lra). lra.
    + rewrite total_mass_setitem by eassumption. rewrite M.
      rewrite Nat2Z.inj_succ. unfold Z.succ. rewrite inject_Z_plus.
      field. lra.
  - unfold sample_step. rewrite Hv. cbn [bind].
    rewrite div_ok by lra. cbn [bind]. rewrite Htp. reflexivity.
Qed.

Lemma sample_step_preserves i st st' :
  sample_inv corpus n i st ->
  sample_step u corpus damping_factor n st i = Ok st' ->
  sample_inv corpus n (S i) st'.
Proof.
  intros Hinv Hstep.
  destruct (sample_step_spec i st Hinv)
    as [pr [linked [tp [[K [_ [P M]]] [_ [Ktp [_ E]]]]]]].
  rewrite E in Hstep.
  destruct (Rand.choices _ _ _) as [next|] eqn:Hc; [|discriminate].
  injection Hstep as <-. apply choices_in in Hc.
  repeat split; simpl in *; try assumption. now rewrite <- Ktp.
Qed.

Lemma sample_step_total i st :
  damping_factor < 1 -> sample_inv corpus n i st ->
  exists st', sample_step u corpus damping_factor n st i = Ok st'.
Proof.
  intros Hd Hinv.
  destruct (sample_step_spec i st Hinv)
    as [pr [linked [tp [_ [_ [Ktp [Mtp E]]]]]]].
  destruct (choices_ok (u (S i)) (keys tp) (values tp)) as [next Hn].
  - rewrite Ktp. destruct corpus; [congruence|discriminate].
  - unfold keys, values. now rewrite !length_map.
  - fold (total_mass tp). rewrite Mtp. destruct linked; lra.
  - rewrite E, Hn. cbn [bind]. eauto.
Qed.

Lemma sample_loop_preserves k :
  forall i st st',
    sample_inv corpus n i st ->
    for_each (seq i k) (sample_step u corpus damping_factor n) st = Ok st' ->
    sample_inv corpus n (i + k) st'.
Proof.
  induction k as [|k IH]; intros i st st' Hinv Hrun; cbn [seq for_each] in Hrun.
  - injection Hrun as <-. now rewrite Nat.add_0_r.
  - destruct (sample_step u corpus damping_factor n st i) as [st1|] eqn:E;
      [|discriminate].
    cbn [bind] in Hrun. rewrite <- Nat.add_succ_comm.
    eapply IH; [|eassumption]. eapply sample_step_preserves; eassumption.
Qed.

Lemma sample_loop_total k :
  damping_factor < 1 ->
  forall i st,
    sample_inv corpus n i st ->
    exists st',
      for_each (seq i k) (sample_step u corpus damping_factor n) st = Ok st'.
Proof.
  intros Hd. induction k as [|k IH]; intros i st Hinv; cbn [seq for_each].
  - eauto.
  - destruct (sample_step_total i st Hd Hinv) as [st1 E]. rewrite E.
    cbn [bind]. apply IH. eapply sample_step_preserves; eassumption.
Qed.

Lemma sample_inv_start current_page :
  In current_page (keys corpus) ->
  sample_inv corpus n 0 (map (fun page => (page, 0)) (keys corpus), current_page).
Proof.
  intros Hc. repeat split; simpl.
  - unfold keys. rewrite map_map. simpl. apply map_id.
  - assumption.
  - unfold values. rewrite map_map. simpl.
    apply Forall_forall. intros v Hv. apply in_map_iff in Hv as [k [<- _]]. lra.
  - pose proof n_pos_Q. rewrite total_mass_const.
    change (inject_Z 0) with 0. field. lra.
Qed.

Lemma sample_inv_end st :
  sample_inv corpus n (Z.to_nat n) st ->
  total_mass (fst st) == 1
  /\ Forall (fun v => 0 <= v /\ v <= 1) (values (fst st))
  /\ keys (fst st) = keys corpus.
Proof.
  pose proof n_pos_Q.
  intros [K [_ [P M]]]. rewrite Z2Nat.id in M by lia.
  assert (M1 : total_mass (fst st) == 1) by (rewrite M; field; lra).
  repeat split; try assumption.
  pose proof (nonneg_le_total (fst st) P) as Hle.
  rewrite Forall_forall in *. intros v Hv.
  specialize (P v Hv). specialize (Hle v Hv). simpl in Hle. lra.
Qed.

(** Whatever the damping factor, a run that returns a mapping returns
    one of total mass 1 with every value in the unit interval. *)
Lemma sample_pagerank_result page_rank :
  sample_pagerank u corpus damping_factor n = Ok page_rank ->
  total_mass page_rank == 1
  /\ Forall (fun v => 0 <= v /\ v <= 1) (values page_rank)
  /\ keys page_rank = keys corpus.
Proof.
  unfold sample_pagerank.
  destruct (Rand.choice _ _) as [cur|] eqn:Hc; [|discriminate].
  cbn [bind]. destruct (for_each _ _ _) as [st|] eqn:Hrun; [|discriminate].
  cbn [bind]. intros [= <-]. apply sample_inv_end.
  change (Z.to_nat n) with (0 + Z.to_nat n)%nat.
  eapply sample_loop_preserves; [|eassumption].
  apply sample_inv_start. eapply choice_in; eassumption.
Qed.

(** Below damping 1 the weights offered to the weighted draw are never
    all zero, and the run returns. *)
Lemma sample_pagerank_total :
  Rand.unit_interval u -> damping_factor < 1 ->
  exists page_rank, sample_pagerank u corpus damping_factor n = Ok page_rank.
Proof.
  intros Hu Hd. unfold sample_pagerank.
  destruct (choice_ok (u O) (keys corpus)) as [cur Hc].
  { destruct corpus; [congruence|discriminate]. }
  { apply Hu. }
  rewrite Hc. cbn [bind].
  destruct (sample_loop_total (Z.to_nat n) Hd 0
              (map (fun page => (page, 0)) (keys corpus), cur)) as [st Hrun].
  { apply sample_inv_start. eapply choice_in; eassumption. }
  rewrite Hrun. cbn [bind]. eauto.
Qed.

End Sampling.

(** With a sample count that is not positive the loop body never runs. *)
Lemma sample_pagerank_no_samples u corpus damping_factor n :
  corpus <> [] -> Rand.unit_interval u -> (n <= 0)%Z ->
  sample_pagerank u corpus damping_factor n
  = Ok (map (fun page => (page, 0)) (keys corpus)).
Proof.
  intros Hne Hu Hn. unfold sample_pagerank.
  destruct (choice_ok (u O) (keys corpus)) as [cur Hc].
  { destruct corpus; [congruence|discriminate]. }
  { apply Hu. }
  rewrite Hc. cbn [bind].
  replace (Z.to_nat n) with O by lia. reflexivity.
Qed.

Lemma sample_pagerank_empty u damping_factor n :
  sample_pagerank u [] damping_factor n = Raise IndexError.
Proof. reflexivity. Qed.

(* ================================================================== *)
(** ** Finite sums of rationals *)

Section Sums.

Context {A : Type}.
Implicit Types (f g : A -> Q) (xs : list A).

Lemma sumQ_cons f x xs : sumQ f (x :: xs) = f x + sumQ f xs.
Proof. reflexivity. Qed.

Lemma sumQ_ext f g xs :
  (forall x, In x xs -> f x == g x) -> sumQ f xs == sumQ g xs.
Proof.
  induction xs as [|x xs IH]; intros H; [reflexivity|].
  rewrite !sumQ_cons. rewrite IH by (intros y Hy; apply H; now right).
  rewrite (H x) by now left. reflexivity.
Qed.

Lemma sumQ_le f g xs :
  (forall x, In x xs -> f x <= g x) -> sumQ f xs <= sumQ g xs.
Proof.
  induction xs as [|x xs IH]; intros H; [apply Qle_refl|].
  rewrite !sumQ_cons. apply Qplus_le_compat.
  - apply H. now left.
  - apply IH. intros y Hy. apply H. now right.
Qed.

Lemma sumQ_nonneg f xs : (forall x, In x xs -> 0 <= f x) -> 0 <= sumQ f xs.
Proof.
  induction xs as [|x xs IH]; intros H; [apply Qle_refl|].
  rewrite sumQ_cons.
  assert (0 <= f x) by (apply H; now left).
  assert (0 <= sumQ f xs) by (apply IH; intros; apply H; now right). lra.
Qed.

Lemma sumQ_plus f g xs :
  sumQ (fun x => f x + g x) xs == sumQ f xs + sumQ g xs.
Proof.
  induction xs as [|x xs IH]; [cbn; lra|]. rewrite !sumQ_cons, IH. lra.
Qed.

Lemma sumQ_minus f g xs :
  sumQ (fun x => f x - g x) xs == sumQ f xs - sumQ g xs.
Proof.
  induction xs as [|x xs IH]; [cbn; lra|]. rewrite !sumQ_cons, IH. lra.
Qed.

Lemma sumQ_scale c f xs : sumQ (fun x => c * f x) xs == c * sumQ f xs.
Proof.
  induction xs as [|x xs IH]; [cbn; lra|]. rewrite !sumQ_cons, IH. lra.
Qed.

Lemma sumQ_zero xs : sumQ (fun _ => 0) xs == 0.
Proof.
  induction xs as [|x xs IH]; [reflexivity|]. rewrite sumQ_cons, IH. lra.
Qed.

Lemma Qabs_sumQ f xs : Qabs (sumQ f xs) <= sumQ (fun x => Qabs (f x)) xs.
Proof.
  induction xs as [|x xs IH]; [cbn; lra|]. rewrite !sumQ_cons.
  eapply Qle_trans; [apply Qabs_triangle|]. lra.
Qed.

Lemma term_le_sumQ f xs x :
  (forall y, In y xs -> 0 <= f y) -> In x xs -> f x <= sumQ f xs.
Proof.
  induction xs as [|y xs IH]; intros Hnn Hin; [destruct Hin|].
  rewrite sumQ_cons.
  assert (0 <= f y) by (apply Hnn; now left).
  assert (0 <= sumQ f xs) by (apply sumQ_nonneg; intros; apply Hnn; now right).
  destruct Hin as [->|Hin]; [lra|].
  assert (f x <= sumQ f xs) by (apply IH; [intros; apply Hnn; now right|assumption]).
  lra.
Qed.

Lemma sumQ_const c xs : sumQ (fun _ => c) xs == len xs * c.
Proof.
  induction xs as [|x xs IH]; [change (0 == 0 * c); lra|].
  rewrite sumQ_cons, IH, len_cons. lra.
Qed.

(** A sum of copies of [c], one for each element passing a test. *)
Lemma sumQ_indicator (t : A -> bool) c xs :
  sumQ (fun x => if t x then c else 0) xs == len (filter t xs) * c.
Proof.
  induction xs as [|x xs IH]; [change (0 == 0 * c); lra|].
  rewrite sumQ_cons, IH. cbn [filter].
  destruct (t x); [rewrite len_cons|]; lra.
Qed.

End Sums.

Lemma sumQ_swap {A B} (f : A -> B -> Q) xs ys :
  sumQ (fun x => sumQ (fun y => f x y) ys) xs
  == sumQ (fun y => sumQ (fun x => f x y) xs) ys.
Proof.
  induction xs as [|x xs IH].
  - cbn [sumQ fold_right]. now rewrite sumQ_zero.
  - rewrite sumQ_cons, IH.
    rewrite <- (sumQ_plus (fun y => f x y) (fun y => sumQ (fun x => f x y) xs)).
    apply sumQ_ext. intros y _. reflexivity.
Qed.

(** Among pairwise distinct pages, those that belong to a set of links
    are no more numerous than the links. *)
Lemma links_counted (ks linked : list string) a :
  NoDup ks -> 0 <= a ->
  sumQ (fun p => if mem p linked then a / len linked else 0) ks <= a.
Proof.
  intros ND Ha. rewrite sumQ_indicator.
  set (hits := filter (fun p => mem p linked) ks).
  assert (Hlen : (List.length hits <= List.length linked)%nat).
  { apply NoDup_incl_length; [now apply NoDup_filter|].
    intros p Hp. apply filter_In in Hp as [_ Hp]. now apply mem_iff. }
  destruct linked as [|l linked].
  - destruct hits; [|simpl in Hlen; lia].
    change (0 * (a / len (@nil string)) <= a). now rewrite Qmult_0_l.
  - pose proof (len_pos (l :: linked) ltac:(discriminate)) as Hpos.
    assert (Hq : len hits <= len (l :: linked)).
    { unfold len. rewrite <- Zle_Qle. lia. }
    pose proof (len_nonneg hits).
    setoid_replace (len hits * (a / len (l :: linked)))
      with (a * (len hits / len (l :: linked))) by (field; lra).
    assert (len hits / len (l :: linked) <= 1)
      by (apply Qle_shift_div_r; lra).
    assert (0 <= len hits / len (l :: linked))
      by (apply Qle_shift_div_l; lra).
    nra.
Qed.

(** ** Powers of the damping factor *)

Lemma qpow_bounds d k : 0 <= d <= 1 -> 0 <= qpow d k <= 1.
Proof.
  intros Hd. induction k as [|k IH]; cbn [qpow]; [lra|]. nra.
Qed.

Lemma qpow_bernoulli d k :
  0 <= d <= 1 -> (1 + inject_Z (Z.of_nat k) * (1 - d)) * qpow d k <= 1.
Proof.
  intros Hd. induction k as [|k IH].
  - cbn [qpow]. change (inject_Z (Z.of_nat 0)) with 0. lra.
  - pose proof (qpow_bounds d k Hd) as Hk.
    pose proof (qpow_bounds d (S k) Hd) as HSk. cbn [qpow] in *.
    rewrite Nat2Z.inj_succ. unfold Z.succ. rewrite inject_Z_plus.
    change (inject_Z 1) with 1.
    set (m := inject_Z (Z.of_nat k)) in *. set (q := qpow d k) in *.
    assert (d * ((1 + m * (1 - d)) * q) <= d * 1) by nra.
    assert ((1 - d) * (d * q) <= (1 - d) * 1) by nra.
    lra.
Qed.

Lemma qpow_small d C eps :
  0 <= d /\ d < 1 -> 0 <= C -> 0 < eps -> exists k, qpow d k * C < eps.
Proof.
  intros [Hd0 Hd1] HC Heps.
  set (e := 1 - d). assert (He : 0 < e) by (unfold e; lra).
  set (z := Qceiling (C / (eps * e))).
  assert (Hpos : 0 < eps * e) by nra.
  assert (Hz : (0 <= z)%Z).
  { change 0%Z with (Qceiling 0). apply Qceiling_resp_le.
    apply Qle_shift_div_l; lra. }
  exists (Z.to_nat z).
  pose proof (qpow_bounds d (Z.to_nat z) ltac:(lra)) as Hq.
  pose proof (qpow_bernoulli d (Z.to_nat z) ltac:(lra)) as Hb.
  rewrite Z2Nat.id in Hb by assumption. fold e in Hb.
  set (q := qpow d (Z.to_nat z)) in *. set (m := inject_Z z) in *.
  assert (Hm : C <= m * (eps * e)).
  { assert (E : C / (eps * e) * (eps * e) == C) by (field; lra).
    rewrite <- E. apply Qmult_le_compat_r; [apply Qle_ceiling|lra]. }
  assert (Hqm : q * C <= q * (m * (eps * e))) by nra.
  assert (Hme : eps * (m * e * q) <= eps * (1 - q)) by nra.
  destruct (Qlt_le_dec 0 q) as [Hq0|Hq0]; [nra|].
  assert (q == 0) by lra. nra.
Qed.

(* ================================================================== *)
(** ** [iterate_pagerank] *)

Lemma lookup_tabulate ks r k :
  In k ks -> lookup (tabulate ks r) k = Some (r k).
Proof.
  induction ks as [|k' ks IH]; intros H; [destruct H|]. simpl.
  destruct (String.eqb_spec k k') as [->|Hne]; [reflexivity|].
  destruct H as [->|H]; [contradiction|auto].
Qed.

Lemma keys_tabulate ks r : keys (tabulate ks r) = ks.
Proof. unfold keys, tabulate. rewrite map_map. simpl. apply map_id. Qed.

Lemma len_nonzero_of_mem p linked : mem p linked = true -> ~ len linked == 0.
Proof.
  intros H. apply mem_iff in H.
  assert (0 < len linked) by (apply len_pos; destruct linked; [destruct H|discriminate]).
  lra.
Qed.

(** The inner loop (lines 111-113) over any part of the graph, reading
    the ranks from a mapping that covers the linking pages. *)
Lemma inner_loop_tabulate ks r damping_factor page (entries : corpus_t) :
  incl (keys entries) ks ->
  forall total,
    for_each entries
      (fun total '(linking_page, linked_pages) =>
         if mem page linked_pages then
           v <- getitem (tabulate ks r) linking_page ;;
           c <- div (damping_factor * v) (len linked_pages) ;;
           Ok (total + c)
         else Ok total)
      total
    = Ok (fold_left
            (fun total '(linking_page, linked_pages) =>
               if mem page linked_pages
               then total + damping_factor * r linking_page / len linked_pages
               else total)
            entries total).
Proof.
  induction entries as [|[q linked] entries IH]; intros Hincl total;
    [reflexivity|].
  cbn [for_each fold_left].
  assert (Hq : In q ks) by (apply Hincl; now left).
  assert (Hrest : incl (keys entries) ks)
    by (intros x Hx; apply Hincl; now right).
  destruct (mem page linked) eqn:M; cbn [bind].
  - unfold getitem. rewrite lookup_tabulate by assumption. cbn [bind].
    rewrite div_ok by now apply len_nonzero_of_mem with page.
    cbn [bind]. now apply IH.
  - now apply IH.
Qed.

(** The convergence test over any part of the pages. *)
Lemma all_pages_tabulate ks r' r (pages : list string) :
  incl pages ks ->
  all_pages
    (fun page =>
       a <- getitem (tabulate ks r') page ;;
       b <- getitem (tabulate ks r) page ;;
       Ok (lt (Qabs (a - b)) tolerance))
    pages
  = Ok (forallb (fun p => lt (Qabs (r' p - r p)) tolerance) pages).
Proof.
  induction pages as [|k pages IH]; intros Hincl; [reflexivity|].
  cbn [all_pages forallb].
  assert (Hk : In k ks) by (apply Hincl; now left).
  unfold getitem. rewrite !lookup_tabulate by assumption. cbn [bind].
  destruct (lt _ _); cbn [andb]; [|reflexivity].
  apply IH. intros x Hx. apply Hincl. now right.
Qed.

Lemma comprehension_const (c : Q) (ks : list string) :
  comprehension (fun page => Ok (page, c)) ks = Ok (tabulate ks (fun _ => c)).
Proof.
  induction ks as [|k ks IH]; [reflexivity|].
  cbn [comprehension bind]. now rewrite IH.
Qed.

Section IterateFacts.

Variable corpus : corpus_t.
Variable damping_factor : Q.

Let N : Q := len corpus.
Let F := rank_formula corpus damping_factor N.
Let T := tabulate (keys corpus).

(** *** The loop body computes [rank_formula] *)

Lemma new_rank_tabulate r page :
  corpus <> [] ->
  new_rank corpus damping_factor N (T r) page = Ok (F r page).
Proof.
  intros Hne. unfold new_rank, F, rank_formula.
  rewrite div_ok by (pose proof (len_pos corpus Hne); unfold N; lra).
  cbn [bind]. apply inner_loop_tabulate, incl_refl.
Qed.

Lemma corpus_cases : corpus = [] \/ corpus <> [].
Proof. destruct corpus; [now left|right; discriminate]. Qed.

Hypothesis keys_distinct : NoDup (keys corpus).

Lemma new_page_rank_tabulate r :
  new_page_rank corpus damping_factor N (T r) = Ok (T (F r)).
Proof.
  destruct corpus_cases as [E|Hne].
  { unfold new_page_rank, T, F, N. now rewrite E. }
  unfold new_page_rank.
  assert (H : forall ks acc,
             for_each ks
               (fun npr page =>
                  total <- new_rank corpus damping_factor N (T r) page ;;
                  Ok (setitem npr page total)) acc
             = Ok (fold_left (fun acc k => setitem acc k (F r k)) ks acc)).
  { induction ks as [|k ks IH]; intros acc; [reflexivity|].
    cbn [for_each fold_left]. rewrite new_rank_tabulate by assumption.
    cbn [bind]. apply IH. }
  rewrite H. f_equal. apply (fill_distinct (F r) (keys corpus) []).
  exact keys_distinct.
Qed.

Lemma converged_tabulate r' r :
  converged corpus (T r') (T r) = Ok (close_enough corpus r' r).
Proof.
  unfold converged, close_enough. apply all_pages_tabulate, incl_refl.
Qed.

Lemma initial_rank_tabulate :
  initial_rank corpus N = Ok (T (fun _ => 1 / N)).
Proof.
  destruct corpus_cases as [E|Hne].
  { unfold initial_rank, T, N. now rewrite E. }
  unfold initial_rank, T, tabulate.
  rewrite div_ok by (pose proof (len_pos corpus Hne); unfold N; lra).
  cbn [bind]. apply comprehension_const.
Qed.

(** One turn of the loop, on rank functions. *)
Lemma iterate_loop_step fuel r :
  iterate_loop (S fuel) corpus damping_factor N (T r)
  = if close_enough corpus (F r) r then Some (Ok (T r))
    else iterate_loop fuel corpus damping_factor N (T (F r)).
Proof.
  cbn [iterate_loop].
  now rewrite new_page_rank_tabulate, converged_tabulate.
Qed.

End IterateFacts.

Lemma sumQ_map {A B} (g : A -> B) (f : B -> Q) xs :
  sumQ f (map g xs) = sumQ (fun x => f (g x)) xs.
Proof.
  induction xs as [|x xs IH]; [reflexivity|]. cbn [map]. now rewrite !sumQ_cons, IH.
Qed.

(** *** The update as a sum, and its Lipschitz bound *)

Section Contraction.

Variable corpus : corpus_t.
Variable damping_factor : Q.

Let N : Q := len corpus.
Let F := rank_formula corpus damping_factor N.

Lemma rank_formula_sum r p :
  F r p == (1 - damping_factor) / N
           + sumQ (contribution damping_factor r p) corpus.
Proof.
  unfold F, rank_formula. generalize ((1 - damping_factor) / N) as total.
  induction corpus as [|[q linked] entries IH]; intros total.
  - cbn. lra.
  - cbn [fold_left]. rewrite IH, sumQ_cons. unfold contribution at 2.
    cbn [fst snd]. destruct (mem p linked); lra.
Qed.

Lemma contribution_minus r s p entry :
  contribution damping_factor r p entry
  - contribution damping_factor s p entry
  == contribution damping_factor (fun q => r q - s q) p entry.
Proof.
  unfold contribution. destruct (mem p (snd entry)); [|lra].
  unfold Qdiv. ring.
Qed.

Lemma rank_formula_minus r s p :
  F r p - F s p
  == sumQ (contribution damping_factor (fun q => r q - s q) p) corpus.
Proof.
  rewrite !rank_formula_sum.
  setoid_replace
    ((1 - damping_factor) / N + sumQ (contribution damping_factor r p) corpus
     - ((1 - damping_factor) / N
        + sumQ (contribution damping_factor s p) corpus))
    with (sumQ (contribution damping_factor r p) corpus
          - sumQ (contribution damping_factor s p) corpus) by ring.
  rewrite <- sumQ_minus. apply sumQ_ext. intros e _.
  apply contribution_minus.
Qed.

Hypothesis damping_nonneg : 0 <= damping_factor.

Lemma contribution_abs x p entry :
  Qabs (contribution damping_factor x p entry)
  <= contribution damping_factor (fun q => Qabs (x q)) p entry.
Proof.
  unfold contribution. destruct (mem p (snd entry)) eqn:M; [|cbn; lra].
  pose proof (len_nonzero_of_mem _ _ M) as Hnz.
  pose proof (len_nonneg (snd entry)) as Hnn.
  setoid_replace (damping_factor * x (fst entry) / len (snd entry))
    with (damping_factor / len (snd entry) * x (fst entry))
    by (unfold Qdiv; ring).
  setoid_replace (damping_factor * Qabs (x (fst entry)) / len (snd entry))
    with (damping_factor / len (snd entry) * Qabs (x (fst entry)))
    by (unfold Qdiv; ring).
  rewrite Qabs_Qmult, (Qabs_pos (damping_factor / len (snd entry))).
  - apply Qle_refl.
  - apply Qle_shift_div_l; lra.
Qed.

Lemma rank_formula_lipschitz r s p :
  Qabs (F r p - F s p)
  <= sumQ (contribution damping_factor (fun q => Qabs (r q - s q)) p) corpus.
Proof.
  rewrite rank_formula_minus.
  eapply Qle_trans; [apply Qabs_sumQ|].
  apply sumQ_le. intros e _. apply contribution_abs.
Qed.

Hypothesis keys_distinct : NoDup (keys corpus).

(** One update shrinks the distance between two rank functions by
    the damping factor: the shares [1 / len linked] that a page hands
    to the pages of the graph add up to at most 1. *)
Lemma update_contracts r s :
  dist corpus (F r) (F s) <= damping_factor * dist corpus r s.
Proof.
  unfold dist.
  eapply Qle_trans.
  { apply sumQ_le. intros p _. apply rank_formula_lipschitz. }
  rewrite (sumQ_swap
             (fun p e =>
                contribution damping_factor (fun q => Qabs (r q - s q)) p e)).
  rewrite <- sumQ_scale. unfold keys. rewrite sumQ_map.
  apply sumQ_le. intros e _. unfold contribution.
  apply (links_counted (map fst corpus) (snd e)
           (damping_factor * Qabs (r (fst e) - s (fst e)))).
  - exact keys_distinct.
  - pose proof (Qabs_nonneg (r (fst e) - s (fst e))). nra.
Qed.

Lemma term_le_dist r s p :
  In p (keys corpus) -> Qabs (r p - s p) <= dist corpus r s.
Proof.
  intros H. unfold dist.
  apply (term_le_sumQ (fun p => Qabs (r p - s p))); [|assumption].
  intros. apply Qabs_nonneg.
Qed.

Lemma dist_nonneg r s : 0 <= dist corpus r s.
Proof. apply sumQ_nonneg. intros. apply Qabs_nonneg. Qed.

Lemma close_enough_of_small r' r :
  dist corpus r' r < tolerance -> close_enough corpus r' r = true.
Proof.
  intros H. unfold close_enough. apply forallb_forall. intros p Hp.
  apply lt_iff. eapply Qle_lt_trans; [apply term_le_dist|]; eassumption.
Qed.

Lemma close_enough_iff r' r :
  close_enough corpus r' r = true
  <-> forall p, In p (keys corpus) -> Qabs (r' p - r p) < tolerance.
Proof.
  unfold close_enough. rewrite forallb_forall.
  split; intros H p Hp; apply lt_iff; auto.
Qed.

End Contraction.

(** *** The loop *)

Lemma iterate_loop_more_fuel corpus damping_factor N fuel :
  forall page_rank outcome,
    iterate_loop fuel corpus damping_factor N page_rank = Some outcome ->
    forall extra,
      iterate_loop (fuel + extra) corpus damping_factor N page_rank
      = Some outcome.
Proof.
  induction fuel as [|fuel IH]; intros pr outcome H extra; [discriminate|].
  cbn [Nat.add iterate_loop] in *.
  destruct (new_page_rank _ _ _ _) as [npr|e]; [|assumption].
  destruct (converged _ _ _) as [[|]|e]; try assumption. now apply IH.
Qed.

Section Loop.

Variable corpus : corpus_t.
Variable damping_factor : Q.
Hypothesis keys_distinct : NoDup (keys corpus).

Let N : Q := len corpus.
Let F := rank_formula corpus damping_factor N.
Let T := tabulate (keys corpus).
Let U := updates corpus damping_factor N.

(** The loop raises nothing. *)
Lemma iterate_loop_no_raise fuel :
  forall r e,
    iterate_loop fuel corpus damping_factor N (T r) <> Some (Raise e).
Proof.
  induction fuel as [|fuel IH]; intros r e; [discriminate|].
  unfold T, N. rewrite iterate_loop_step by assumption.
  destruct (close_enough _ _ _); [discriminate|apply IH].
Qed.

(** What the loop returns is an iterate of the update that passes the
    convergence test. *)
Lemma iterate_loop_returns fuel :
  forall r page_rank,
    iterate_loop fuel corpus damping_factor N (T r) = Some (Ok page_rank) ->
    exists j,
      page_rank = T (U j r)
      /\ close_enough corpus (F (U j r)) (U j r) = true.
Proof.
  induction fuel as [|fuel IH]; intros r pr H; [discriminate|].
  unfold T, N in H. rewrite iterate_loop_step in H by assumption.
  destruct (close_enough _ _ _) eqn:C.
  - injection H as <-. exists O. split; [reflexivity|exact C].
  - destruct (IH _ _ H) as [j [E Cj]]. exists (S j). split; assumption.
Qed.

(** As long as some page moves by the tolerance or more, the loop goes
    on: nothing else stops it. *)
Lemma iterate_loop_no_cap (P : (string -> Q) -> Prop) :
  (forall r, P r -> close_enough corpus (F r) r = false /\ P (F r)) ->
  forall fuel r, P r -> iterate_loop fuel corpus damping_factor N (T r) = None.
Proof.
  intros HP. induction fuel as [|fuel IH]; intros r Hr; [reflexivity|].
  unfold T, N. rewrite iterate_loop_step by assumption.
  destruct (HP r Hr) as [C Hn]. fold N F. rewrite C. now apply IH.
Qed.

Hypothesis damping_range : 0 <= damping_factor /\ damping_factor < 1.

Lemma iterate_loop_converges k :
  forall r,
    qpow damping_factor k * dist corpus (F r) r < tolerance ->
    exists fuel j,
      iterate_loop fuel corpus damping_factor N (T r) = Some (Ok (T (U j r)))
      /\ close_enough corpus (F (U j r)) (U j r) = true.
Proof.
  induction k as [|k IH]; intros r Hk.
  - exists 1%nat, O. unfold T, N. rewrite iterate_loop_step by assumption.
    fold N F. cbn [qpow] in Hk.
    assert (C : close_enough corpus (F r) r = true)
      by (apply close_enough_of_small; lra).
    rewrite C. now split.
  - destruct (close_enough corpus (F r) r) eqn:C.
    + exists 1%nat, O. unfold T, N. rewrite iterate_loop_step by assumption.
      fold N F. rewrite C. now split.
    + destruct (IH (F r)) as [fuel [j [E Cj]]].
      { pose proof (update_contracts corpus damping_factor
                      (proj1 damping_range) keys_distinct (F r) r) as Hc.
        fold N F in Hc. cbn [qpow] in Hk.
        pose proof (qpow_bounds damping_factor k ltac:(lra)) as Hq.
        set (a := dist corpus (F (F r)) (F r)) in *.
        set (b := dist corpus (F r) r) in *.
        set (q := qpow damping_factor k) in *.
        assert (q * a <= q * (damping_factor * b)) by nra.
        lra. }
      exists (S fuel), (S j). unfold T, N.
      rewrite iterate_loop_step by assumption. fold N F T. rewrite C.
      split; assumption.
Qed.

Lemma iterate_loop_terminates r :
  exists fuel j,
    iterate_loop fuel corpus damping_factor N (T r) = Some (Ok (T (U j r)))
    /\ close_enough corpus (F (U j r)) (U j r) = true.
Proof.
  destruct (qpow_small damping_factor (dist corpus (F r) r) tolerance)
    as [k Hk]; [assumption|apply dist_nonneg|reflexivity|].
  now apply iterate_loop_converges with k.
Qed.

End Loop.

(** *** The whole call *)

Section IteratePagerank.

Variable corpus : corpus_t.
Variable damping_factor : Q.
Hypothesis keys_distinct : NoDup (keys corpus).

Let N : Q := len corpus.
Let F := rank_formula corpus damping_factor N.
Let T := tabulate (keys corpus).
Let U := updates corpus damping_factor N.
Let r0 : string -> Q := fun _ => 1 / N.

Lemma iterate_pagerank_unfold fuel :
  iterate_pagerank fuel corpus damping_factor
  = iterate_loop fuel corpus damping_factor N (T r0).
Proof.
  unfold iterate_pagerank. cbv zeta.
  now rewrite (initial_rank_tabulate corpus).
Qed.

Lemma iterate_pagerank_more_fuel fuel outcome :
  iterate_pagerank fuel corpus damping_factor = Some outcome ->
  forall extra,
    iterate_pagerank (fuel + extra) corpus damping_factor = Some outcome.
Proof.
  rewrite iterate_pagerank_unfold. intros H extra.
  rewrite iterate_pagerank_unfold. now apply iterate_loop_more_fuel.
Qed.

Lemma iterate_pagerank_no_raise fuel e :
  iterate_pagerank fuel corpus damping_factor <> Some (Raise e).
Proof.
  rewrite iterate_pagerank_unfold. now apply iterate_loop_no_raise.
Qed.

(** In exact arithmetic the updates contract and the loop ends for every
    damping factor in [0,1); rounding can undo this, see
    [fed_cycle_never_stops]. *)
Lemma iterate_pagerank_halts :
  0 <= damping_factor /\ damping_factor < 1 ->
  exists fuel page_rank,
    iterate_pagerank fuel corpus damping_factor = Some (Ok page_rank)
    /\ forall extra,
         iterate_pagerank (fuel + extra) corpus damping_factor
         = Some (Ok page_rank).
Proof.
  intros Hd.
  destruct (iterate_loop_terminates corpus damping_factor keys_distinct Hd r0)
    as [fuel [j [E _]]].
  exists fuel, (T (U j r0)). split.
  - now rewrite iterate_pagerank_unfold.
  - intros extra. rewrite iterate_pagerank_unfold.
    now apply iterate_loop_more_fuel.
Qed.

End IteratePagerank.

(* ================================================================== *)
(** ** The example graphs *)

Lemma lookup_of_in {V} (d : dict V) k v :
  NoDup (keys d) -> In (k, v) d -> lookup d k = Some v.
Proof.
  induction d as [|[k' v'] d IH]; intros ND Hin; [destruct Hin|].
  simpl in ND. inversion ND as [|? ? Hk ND']; subst. simpl.
  destruct Hin as [[= -> ->]|Hin].
  - now rewrite String.eqb_refl.
  - destruct (String.eqb_spec k k') as [->|_]; [|auto].
    apply (in_map fst) in Hin. contradiction.
Qed.

Lemma wf_one_sink : wf_corpus one_sink.
Proof.
  split.
  - repeat constructor. intros [].
  - intros page links link [[= <- <-]|[]] [].
Qed.

Lemma wf_link_to_sink : wf_corpus link_to_sink.
Proof.
  split.
  - repeat constructor; simpl; intuition discriminate.
  - intros page links link [[= <- <-]|[[= <- <-]|[]]]; simpl; intuition.
Qed.

Lemma wf_two_into_one : wf_corpus two_into_one.
Proof.
  split.
  - repeat constructor; simpl; intuition discriminate.
  - intros page links link [[= <- <-]|[[= <- <-]|[[= <- <-]|[]]]];
      simpl; intuition.
Qed.

Lemma unit_interval_const c : 0 <= c /\ c < 1 -> Rand.unit_interval (fun _ => c).
Proof. intros H i. exact H. Qed.

Lemma two_into_one_update r :
  let F := rank_formula two_into_one 1 (len two_into_one) in
  F r "A" == r "B" + r "C" /\ F r "B" == r "A" /\ F r "C" == 0.
Proof.
  cbv zeta. rewrite !rank_formula_sum. unfold two_into_one, sumQ, contribution.
  cbn [fold_right fst snd]. simpl (mem _ _). cbv iota.
  change (len [("A", ["B"]); ("B", ["A"]); ("C", ["A"])]) with (3 # 1).
  change (len ["A"]) with 1. change (len ["B"]) with 1.
  repeat split; field.
Qed.

Lemma swapping_goes_on r :
  swapping r ->
  close_enough two_into_one
    (rank_formula two_into_one 1 (len two_into_one) r) r = false
  /\ swapping (rank_formula two_into_one 1 (len two_into_one) r).
Proof.
  intros H. destruct (two_into_one_update r) as [EA [EB EC]]. split.
  - unfold close_enough. change (keys two_into_one) with ["A"; "B"; "C"].
    cbn [forallb].
    replace (lt (Qabs (rank_formula two_into_one 1 (len two_into_one) r "A"
                       - r "A")) tolerance) with false; [reflexivity|].
    symmetry. apply lt_false_iff. rewrite EA. unfold tolerance.
    destruct H as [[HA [HB HC]]|[[HA [HB HC]]|[HA [HB HC]]]];
      rewrite HA, HB, HC; apply Qabs_case; intros; lra.
  - unfold swapping. rewrite EA, EB, EC.
    destruct H as [[HA [HB HC]]|[[HA [HB HC]]|[HA [HB HC]]]];
      rewrite HA, HB, HC; [right; left|right; right|right; left];
      repeat split; lra.
Qed.

Lemma two_into_one_never_stops fuel :
  iterate_pagerank fuel two_into_one 1 = None.
Proof.
  rewrite iterate_pagerank_unfold.
  apply (iterate_loop_no_cap two_into_one 1 (proj1 wf_two_into_one) swapping).
  - apply swapping_goes_on.
  - left. repeat split; reflexivity.
Qed.

(* ================================================================== *)
(** ** Supporting facts about sinks *)

(** Where the current page has links, or is not a page of the graph, the
    model returns a probability distribution (in exact arithmetic; up to
    rounding in binary64). *)
Lemma transition_model_distribution corpus page damping_factor l ls :
  wf_corpus corpus -> corpus <> [] ->
  linked_pages_of corpus page = Ok (l :: ls) ->
  exists tp,
    transition_model corpus page damping_factor = Ok tp
    /\ keys tp = keys corpus
    /\ total_mass tp == 1
    /\ (0 <= damping_factor <= 1 -> Forall (fun v => 0 <= v) (values tp)).
Proof.
  intros Hwf Hne Hl.
  destruct (transition_model_total corpus damping_factor Hwf Hne page)
    as [linked [tp [Hl' [E [K [M P]]]]]].
  rewrite Hl in Hl'. injection Hl' as <-.
  exists tp. repeat split; try assumption. rewrite M. lra.
Qed.

(** Where it has none, the damping term is dropped and the mass of the
    mapping is [1 - damping_factor]. *)
Lemma transition_model_at_sink corpus page damping_factor :
  wf_corpus corpus -> In (page, []) corpus ->
  linked_pages_of corpus page = Ok []
  /\ exists tp,
       transition_model corpus page damping_factor = Ok tp
       /\ total_mass tp == 1 - damping_factor.
Proof.
  intros Hwf Hin.
  assert (Hne : corpus <> []) by (destruct corpus; [destruct Hin|discriminate]).
  assert (Hl : linked_pages_of corpus page = Ok []).
  { unfold linked_pages_of, contains, getitem.
    now rewrite (lookup_of_in corpus page [] (proj1 Hwf) Hin). }
  split; [exact Hl|].
  destruct (transition_model_total corpus damping_factor Hwf Hne page)
    as [linked [tp [Hl' [E [_ [M _]]]]]].
  rewrite Hl in Hl'. injection Hl' as <-.
  exists tp. split; [assumption|]. rewrite M. lra.
Qed.

Lemma linked_pages_of_absent corpus page :
  ~ In page (keys corpus) -> linked_pages_of corpus page = Ok (keys corpus).
Proof.
  intros H. unfold linked_pages_of.
  destruct (contains corpus page) eqn:E; [|reflexivity].
  apply contains_iff in E. contradiction.
Qed.

(** In exact arithmetic, on the graph of one page without links the
    sampling estimator gives that page rank 1. *)
Lemma single_sink_sampling_rank u damping_factor n :
  Rand.unit_interval u -> damping_factor < 1 -> (0 < n)%Z ->
  exists v, sample_pagerank u one_sink damping_factor n = Ok [("A", v)]
            /\ v == 1.
Proof.
  intros Hu Hd Hn.
  destruct (sample_pagerank_total u one_sink damping_factor n wf_one_sink
              ltac:(discriminate) Hn Hu Hd) as [pr E].
  destruct (sample_pagerank_result u one_sink damping_factor n wf_one_sink
              ltac:(discriminate) Hn pr E) as [M [_ K]].
  destruct pr as [|[k v] [|? ?]]; try discriminate.
  injection K as ->. exists v. split; [assumption|].
  rewrite total_mass_cons in M. change (total_mass []) with 0 in M. lra.
Qed.

(** At damping 1 the weights at a page without links are all zero and
    the weighted draw is refused. *)
Example sample_pagerank_damping_one :
  sample_pagerank (fun _ => 0) one_sink 1 1 = Raise ValueError.
Proof. reflexivity. Qed.

(** The update that passes the test is thrown away: with damping 1/2000
    one page without links keeps rank 1 although the update computes
    1999/2000. *)
Example final_update_discarded :
  iterate_pagerank 1 one_sink (1 # 2000) = Some (Ok [("A", 1)])
  /\ new_page_rank one_sink (1 # 2000) (len one_sink) [("A", 1)]
     = Ok [("A", 1999 # 2000)].
Proof. split; reflexivity. Qed.

(* ================================================================== *)
(** ** The properties of the design document *)

(** C1 (transition_model returns non-negative probabilities that sum to
    1).  The code falls short of it on a page without links: on the
    one-page graph [{A: {}}] with damping 0.85 the returned mapping is
    [{A: 0.15}], of total mass 0.15, further than 1e-9 from 1. *)
Theorem transition_model_sink_mass :
  exists tp,
    transition_model one_sink "A" (17 # 20) = Ok tp
    /\ tp = [("A", 3 # 20)]
    /\ total_mass tp == 3 # 20
    /\ 1 # 1000000000 < Qabs (total_mass tp - 1).
Proof.
  exists [("A", 3 # 20)].
  split; [reflexivity|]. split; [reflexivity|]. split; reflexivity.
Qed.

(** C2 (a page that is absent or without links is treated as linking to
    every page).  The code does so for an absent page only: for the page
    [A] of [{A: {}}] the set of linked pages is empty, not [{A}], and
    the probability added per link is 0. *)
Theorem linked_pages_of_sink_is_empty :
  linked_pages_of one_sink "A" = Ok []
  /\ keys one_sink = ["A"]
  /\ link_prob_of (17 # 20) [] = Ok 0
  /\ linked_pages_of one_sink "Z" = Ok ["A"].
Proof.
  split; [reflexivity|]. split; [reflexivity|]. split; reflexivity.
Qed.

(** C3 (the ranks of iterate_pagerank sum to 1 within 1e-3, at every
    iteration).  The code loses the mass of pages without links: on
    [{A: {B}, B: {}}] with damping 0.85 the first update already has
    total mass 0.575 and the returned ranks have total mass 0.21375. *)
Theorem iterate_pagerank_mass_leaks :
  exists r1 r,
    new_page_rank link_to_sink (17 # 20) (len link_to_sink)
      [("A", 1 # 2); ("B", 1 # 2)] = Ok r1
    /\ total_mass r1 == 23 # 40
    /\ (forall extra,
          iterate_pagerank (3 + extra) link_to_sink (17 # 20) = Some (Ok r))
    /\ total_mass r == 171 # 800
    /\ 1 # 1000 < Qabs (total_mass r - 1).
Proof.
  eexists. eexists.
  split; [vm_compute; reflexivity|]. split; [reflexivity|]. split.
  - apply iterate_pagerank_more_fuel. vm_compute. reflexivity.
  - split; reflexivity.
Qed.

(** C5 (one page without links has rank 1.0 under both estimators).  The
    iterative estimator returns 0.15 for it with damping 0.85: the first
    update replaces 1 by [(1 - 0.85)/1], the second changes nothing and
    the loop stops. *)
Theorem single_sink_iterative_rank :
  (forall extra,
      iterate_pagerank (2 + extra) one_sink (17 # 20)
      = Some (Ok [("A", 3 # 20)]))
  /\ ~ (3 # 20 == 1).
Proof.
  split; [|discriminate].
  apply iterate_pagerank_more_fuel. reflexivity.
Qed.

(** C7, counterexample (transition_model fails with InvalidInput on an
    empty graph).  On the empty graph the call fails, but with the
    [ZeroDivisionError] of line 53. *)
Lemma transition_model_empty_not_invalid_input :
  transition_model [] "A" (17 # 20) = Raise ZeroDivisionError
  /\ transition_model [] "A" (17 # 20) <> Raise InvalidInput.
Proof. split; [reflexivity|discriminate]. Qed.

(** C7, as amended: on the empty graph transition_model fails with
    [ZeroDivisionError], for every page and damping factor; the
    exception reaches the caller. *)
Theorem transition_model_empty_graph page damping_factor :
  transition_model [] page damping_factor = Raise ZeroDivisionError.
Proof. reflexivity. Qed.

(** C8, counterexample (sample_pagerank fails with InvalidInput when the
    sample count is not positive).  With sample count 0 on [{A: {}}] it
    returns [{A: 0}]. *)
Lemma sample_pagerank_zero_samples :
  sample_pagerank (fun _ => 0) one_sink (17 # 20) 0 = Ok [("A", 0)]
  /\ sample_pagerank (fun _ => 0) one_sink (17 # 20) 0 <> Raise InvalidInput.
Proof. split; [reflexivity|discriminate]. Qed.

(** C8, as amended: with an integer sample count [n <= 0] the loop body
    never runs and nothing checks [n]: on a non-empty graph the call
    returns the mapping that gives every page 0, for every damping
    factor; on the empty graph it fails with the [IndexError] of the
    choice of the start page. *)
Theorem sample_pagerank_nonpositive_count u corpus damping_factor n :
  Rand.unit_interval u -> (n <= 0)%Z ->
  sample_pagerank u corpus damping_factor n
  = match corpus with
    | [] => Raise IndexError
    | _ => Ok (map (fun page => (page, 0)) (keys corpus))
    end.
Proof.
  intros Hu Hn. destruct corpus as [|entry rest] eqn:E.
  - apply sample_pagerank_empty.
  - rewrite <- E. apply sample_pagerank_no_samples; [|assumption..].
    rewrite E. discriminate.
Qed.

(** The statement at [{A: {B}, B: {}}] with sample count -3. *)
Lemma sample_pagerank_nonpositive_count_witness :
  sample_pagerank (fun _ => 1 # 2) link_to_sink (17 # 20) (-3)
  = Ok [("A", 0); ("B", 0)].
Proof.
  apply (sample_pagerank_nonpositive_count
           (fun _ => 1 # 2) link_to_sink (17 # 20) (-3)).
  - apply unit_interval_const. split; [discriminate|reflexivity].
  - discriminate.
Defined.

(** C9 (the graph built by crawl).  For every list of files with their
    raw links: the keys of the graph are pairwise distinct, every link
    of every page is a key of the graph, no page links to itself, and
    every [.html] file of the input is a page of the graph whatever is
    left of its links, so that a page without links is kept. *)
Theorem crawl_builds_graph (files : list (string * list string)) :
  NoDup (keys (crawl files))
  /\ links_closed (crawl files)
  /\ no_self_links (crawl files)
  /\ forall filename links,
       In (filename, links) files -> endswith filename ".html" = true ->
       In filename (keys (crawl files)).
Proof.
  destruct (crawl_wf files) as [ND LC].
  repeat split; [exact ND|exact LC|apply crawl_no_self_links|].
  intros filename links. apply crawl_keeps_every_page.
Qed.

(** A page whose only links are to itself and outside the corpus ends up
    with the empty set. *)
Example crawl_keeps_sink :
  crawl [("a.html", ["b.html"; "a.html"; "x.html"; "b.html"]);
         ("b.html", ["b.html"; "http://example.org"]);
         ("notes.txt", ["a.html"])]
  = [("a.html", ["b.html"]); ("b.html", [])].
Proof. reflexivity. Qed.

(* ================================================================== *)
(** ** Further properties of [crawl] *)

Lemma lookup_setitem_same {V} (d : dict V) k v :
  lookup (setitem d k v) k = Some v.
Proof.
  induction d as [|[k' v'] d IH]; simpl.
  - now rewrite String.eqb_refl.
  - destruct (String.eqb_spec k k') as [->|Hne]; simpl.
    + now rewrite String.eqb_refl.
    + destruct (String.eqb_spec k k'); [contradiction|assumption].
Qed.

Lemma lookup_setitem_other {V} (d : dict V) k v k' :
  k' <> k -> lookup (setitem d k v) k' = lookup d k'.
Proof.
  intros Hne. induction d as [|[k0 v0] d IH]; simpl.
  - destruct (String.eqb_spec k' k); [contradiction|reflexivity].
  - destruct (String.eqb_spec k k0) as [->|Hne0]; simpl.
    + destruct (String.eqb_spec k' k0); [contradiction|reflexivity].
    + destruct (String.eqb_spec k' k0); [reflexivity|assumption].
Qed.

Lemma fold_add_file_keys files :
  forall pages k,
    In k (keys (fold_left add_file files pages)) ->
    In k (keys pages)
    \/ exists links, In (k, links) files /\ endswith k ".html" = true.
Proof.
  induction files as [|[filename links] files IH]; intros pages k H;
    [now left|].
  cbn [fold_left] in H. destruct (IH _ _ H) as [Hk|[ls [Hin E]]].
  - unfold add_file in Hk.
    destruct (endswith filename ".html") eqn:E; cbn [negb] in Hk;
      [|now left].
    apply in_keys_setitem in Hk as [->|Hk]; [|now left].
    right. exists links. split; [now left|assumption].
  - right. exists ls. split; [now right|assumption].
Qed.

Lemma fold_add_file_links_nodup files :
  forall pages,
    links_nodup pages -> links_nodup (fold_left add_file files pages).
Proof.
  induction files as [|[filename links] files IH]; intros pages H;
    [exact H|].
  cbn [fold_left]. apply IH. unfold add_file.
  destruct (endswith filename ".html"); cbn [negb]; [|exact H].
  intros page ls Hin. apply in_setitem in Hin as [[= -> ->]|Hin].
  - unfold discard, set_of. apply NoDup_filter, NoDup_nodup.
  - now apply H with page.
Qed.

Lemma crawl_links_nodup files : links_nodup (crawl files).
Proof.
  intros page links Hin.
  apply in_crawl_restrict in Hin as [raw [Hin ->]].
  apply NoDup_filter.
  apply (fold_add_file_links_nodup files [] ltac:(intros ? ? []) page raw).
  exact Hin.
Qed.

Lemma fold_add_file_other files :
  forall pages k,
    ~ In k (map fst files) ->
    lookup (fold_left add_file files pages) k = lookup pages k.
Proof.
  induction files as [|[filename links] files IH]; intros pages k H;
    [reflexivity|].
  cbn [fold_left]. rewrite IH by (intros Hk; apply H; now right).
  unfold add_file. destruct (endswith filename ".html"); cbn [negb];
    [|reflexivity].
  apply lookup_setitem_other. intros ->. apply H. now left.
Qed.

Lemma fold_add_file_lookup files :
  forall pages filename raw,
    NoDup (map fst files) -> In (filename, raw) files ->
    endswith filename ".html" = true ->
    lookup (fold_left add_file files pages) filename
    = Some (discard (set_of raw) filename).
Proof.
  induction files as [|[f ls] files IH]; intros pages filename raw ND Hin E;
    [destruct Hin|].
  cbn [map fst] in ND. inversion ND as [|? ? Hf ND']; subst.
  cbn [fold_left]. destruct Hin as [[= -> ->]|Hin].
  - rewrite fold_add_file_other by assumption.
    unfold add_file. rewrite E. cbn [negb]. apply lookup_setitem_same.
  - now apply IH.
Qed.

Lemma lookup_crawl_restrict pages k :
  lookup (crawl_restrict pages) k
  = option_map (filter (fun link => contains pages link)) (lookup pages k).
Proof.
  unfold crawl_restrict. generalize (fun link => contains pages link) as keep.
  intros keep. induction pages as [|[k' v'] pages IH]; [reflexivity|].
  cbn [map lookup]. destruct (String.eqb k k'); [reflexivity|exact IH].
Qed.

Lemma crawl_keys_iff files k :
  In k (keys (crawl files))
  <-> exists links, In (k, links) files /\ endswith k ".html" = true.
Proof.
  split.
  - unfold crawl. rewrite keys_crawl_restrict, crawl_extract_fold. intros H.
    apply fold_add_file_keys in H as [[]|H]. exact H.
  - intros [links [Hin E]]. now apply crawl_keeps_every_page with links.
Qed.

(** X1.  The pages of the graph are exactly the files of the directory
    whose name ends in [.html]. *)
Theorem crawl_pages_exact (files : list (string * list string)) (k : string) :
  In k (keys (crawl files))
  <-> exists links, In (k, links) files /\ endswith k ".html" = true.
Proof. apply crawl_keys_iff. Qed.

(** X2.  In a directory (file names are pairwise distinct) the links kept
    for a page are exactly the links found in its file that are not the
    page itself and name a page of the directory. *)
Theorem crawl_links_exact files filename raw :
  NoDup (map fst files) -> In (filename, raw) files ->
  endswith filename ".html" = true ->
  exists links,
    lookup (crawl files) filename = Some links
    /\ forall l,
         In l links
         <-> In l raw /\ l <> filename
             /\ exists ls, In (l, ls) files /\ endswith l ".html" = true.
Proof.
  intros ND Hin E.
  exists (filter (fun link => contains (crawl_extract files) link)
            (discard (set_of raw) filename)).
  split.
  - unfold crawl. rewrite lookup_crawl_restrict, crawl_extract_fold.
    now rewrite (fold_add_file_lookup files [] filename raw ND Hin E).
  - intros l. rewrite filter_In, in_discard. unfold set_of.
    rewrite nodup_In, contains_iff.
    rewrite <- (keys_crawl_restrict (crawl_extract files)).
    fold (crawl files). rewrite crawl_keys_iff. tauto.
Qed.

(** The statement at the page [a.html] of [example_files]. *)
Lemma crawl_links_exact_witness :
  exists links,
    lookup (crawl example_files) "a.html" = Some links
    /\ forall l,
         In l links
         <-> In l ["b.html"; "a.html"; "x.html"; "b.html"] /\ l <> "a.html"
             /\ exists ls,
                  In (l, ls) example_files /\ endswith l ".html" = true.
Proof.
  apply (crawl_links_exact example_files "a.html"
           ["b.html"; "a.html"; "x.html"; "b.html"]).
  - repeat constructor; simpl; intuition discriminate.
  - now left.
  - reflexivity.
Defined.

(** X3.  Whatever the input, no page of the graph lists a link twice. *)
Theorem crawl_links_are_sets (files : list (string * list string)) :
  Forall (fun entry => NoDup (snd entry)) (crawl files).
Proof.
  apply Forall_forall. intros [page links] Hin.
  exact (crawl_links_nodup files page links Hin).
Qed.

(* ================================================================== *)
(** ** Further properties of [transition_model] *)

Lemma occurrences_cons p linked k :
  occurrences (p :: linked) k
  == (if String.eqb k p then 1 else 0) + occurrences linked k.
Proof.
  unfold occurrences. cbn [count_occ].
  destruct (string_dec p k) as [->|Hne].
  - rewrite String.eqb_refl, Nat2Z.inj_succ. unfold Z.succ.
    rewrite inject_Z_plus. change (inject_Z 1) with 1. lra.
  - destruct (String.eqb_spec k p) as [->|_]; [contradiction|]. lra.
Qed.

Lemma occurrences_nodup linked k :
  NoDup linked -> occurrences linked k == (if mem k linked then 1 else 0).
Proof.
  intros ND. unfold occurrences. destruct (mem k linked) eqn:M.
  - apply mem_iff in M.
    now rewrite (proj1 (NoDup_count_occ' string_dec linked) ND k M).
  - assert (~ In k linked) by (rewrite <- mem_iff; congruence).
    now rewrite (proj1 (count_occ_not_In string_dec linked k)).
Qed.

(** The second loop adds [link_prob] to an entry once per occurrence of
    its key among the linked pages. *)
Lemma add_links_lookup link_prob (linked : list string) :
  forall tp : ranks_t,
    incl linked (keys tp) ->
    exists tp',
      for_each linked (add_link link_prob) tp = Ok tp'
      /\ forall k v,
           lookup tp k = Some v ->
           exists v',
             lookup tp' k = Some v'
             /\ v' == v + occurrences linked k * link_prob.
Proof.
  induction linked as [|p linked IH]; intros tp Hincl.
  - exists tp. split; [reflexivity|]. intros k v Hk. exists v.
    split; [assumption|]. change (occurrences [] k) with 0. lra.
  - assert (Hp : In p (keys tp)) by (apply Hincl; now left).
    destruct (getitem_in tp p Hp) as [v0 Hv0].
    destruct (IH (setitem tp p (v0 + link_prob))) as [tp' [E L]].
    { intros x Hx. apply in_keys_setitem. right. apply Hincl. now right. }
    exists tp'. cbn [for_each]. unfold add_link at 1. rewrite Hv0.
    cbn [bind]. split; [exact E|].
    intros k v Hk. apply getitem_ok in Hv0.
    destruct (String.eqb_spec k p) as [->|Hne].
    + rewrite Hv0 in Hk. injection Hk as <-.
      destruct (L p (v0 + link_prob) (lookup_setitem_same tp p _))
        as [v' [Hv' Ev']].
      exists v'. split; [assumption|].
      rewrite Ev', occurrences_cons, String.eqb_refl. lra.
    + destruct (L k v) as [v' [Hv' Ev']].
      { now rewrite lookup_setitem_other. }
      exists v'. split; [assumption|].
      rewrite Ev', occurrences_cons.
      destruct (String.eqb_spec k p); [contradiction|]. lra.
Qed.

(** The mapping returned on a well-formed, non-empty graph, entry by
    entry. *)
Lemma transition_model_entries corpus page damping_factor :
  wf_corpus corpus -> corpus <> [] ->
  exists linked tp,
    linked_pages_of corpus page = Ok linked
    /\ transition_model corpus page damping_factor = Ok tp
    /\ keys tp = keys corpus
    /\ forall p,
         In p (keys corpus) ->
         exists v,
           lookup tp p = Some v
           /\ v == (1 - damping_factor) / len corpus
                   + occurrences linked p
                     * (match linked with
                        | [] => 0
                        | _ => damping_factor / len linked
                        end).
Proof.
  intros Hwf Hne.
  destruct (transition_model_total corpus damping_factor Hwf Hne page)
    as [linked [tp [Hl [Htp [K _]]]]].
  exists linked, tp. repeat split; try assumption.
  intros p Hp. revert Htp. unfold transition_model. rewrite Hl. cbn [bind].
  assert (Hlp : link_prob_of damping_factor linked
                = Ok (match linked with
                      | [] => 0
                      | _ => damping_factor / len linked
                      end)).
  { destruct linked as [|l ls]; [reflexivity|]. unfold link_prob_of.
    apply div_ok. pose proof (len_pos (l :: ls) ltac:(discriminate)). lra. }
  rewrite Hlp. cbn [bind].
  rewrite div_ok by now apply len_corpus_nonzero.
  cbn [bind].
  rewrite (fill_distinct (fun _ => (1 - damping_factor) / len corpus)
             (keys corpus) []) by (apply Hwf).
  cbn [app]. intros Htp.
  destruct (add_links_lookup
              (match linked with [] => 0 | _ => damping_factor / len linked end)
              linked
              (map (fun k => (k, (1 - damping_factor) / len corpus))
                 (keys corpus)))
    as [tp' [E L]].
  { fold (tabulate (keys corpus) (fun _ => (1 - damping_factor) / len corpus)).
    rewrite keys_tabulate. now apply linked_pages_incl with page. }
  rewrite E in Htp. injection Htp as ->.
  apply (L p).
  now apply (lookup_tabulate (keys corpus)
               (fun _ => (1 - damping_factor) / len corpus)).
Qed.

Lemma add_links_missing link_prob (linked : list string) :
  forall tp : ranks_t,
    (exists l, In l linked /\ ~ In l (keys tp)) ->
    for_each linked (add_link link_prob) tp = Raise KeyError.
Proof.
  induction linked as [|p linked IH]; intros tp [l [Hl Hm]]; [destruct Hl|].
  cbn [for_each]. unfold add_link at 1, getitem.
  destruct (lookup tp p) as [v|] eqn:E; [|reflexivity].
  cbn [bind]. apply IH. exists l.
  assert (Hp : In p (keys tp)).
  { apply lookup_some_in in E. now apply (in_map fst) in E. }
  destruct Hl as [->|Hl]; [contradiction|].
  split; [assumption|]. now rewrite keys_setitem_in.
Qed.

Lemma linked_pages_of_present corpus page linked :
  NoDup (keys corpus) -> In (page, linked) corpus ->
  linked_pages_of corpus page = Ok linked.
Proof.
  intros ND Hin. unfold linked_pages_of, contains, getitem.
  now rewrite (lookup_of_in corpus page linked ND Hin).
Qed.

Lemma links_nodup_link_to_sink : links_nodup link_to_sink.
Proof.
  intros page links [[= <- <-]|[[= <- <-]|[]]]; repeat constructor.
  intros [].
Qed.

(** X4.  On a well-formed graph whose link collections are sets, the
    mapping returned for a page of the graph has the keys of the graph
    and gives each page [p] the value [(1 - d)/N], plus [d/len(links)]
    when [p] is one of the links of the current page. *)
Theorem transition_model_probabilities corpus page linked damping_factor :
  wf_corpus corpus -> links_nodup corpus -> In (page, linked) corpus ->
  exists tp,
    transition_model corpus page damping_factor = Ok tp
    /\ keys tp = keys corpus
    /\ forall p,
         In p (keys corpus) ->
         exists v,
           lookup tp p = Some v
           /\ v == (1 - damping_factor) / len corpus
                   + (if mem p linked then damping_factor / len linked else 0).
Proof.
  intros Hwf Hset Hin.
  assert (Hne : corpus <> []) by (destruct corpus; [destruct Hin|discriminate]).
  destruct (transition_model_entries corpus page damping_factor Hwf Hne)
    as [linked' [tp [Hl [Htp [K V]]]]].
  rewrite (linked_pages_of_present corpus page linked (proj1 Hwf) Hin) in Hl.
  injection Hl as <-.
  exists tp. repeat split; try assumption.
  intros p Hp. destruct (V p Hp) as [v [Hv Ev]].
  exists v. split; [assumption|].
  rewrite Ev, (occurrences_nodup linked p (Hset page linked Hin)).
  destruct (mem p linked) eqn:M; [|lra].
  destruct linked; [discriminate|]. lra.
Qed.

(** The statement at the page [A] of [{A: {B}, B: {}}] with damping
    0.85. *)
Lemma transition_model_probabilities_witness :
  exists tp,
    transition_model link_to_sink "A" (17 # 20) = Ok tp
    /\ keys tp = keys link_to_sink
    /\ forall p,
         In p (keys link_to_sink) ->
         exists v,
           lookup tp p = Some v
           /\ v == (1 - (17 # 20)) / len link_to_sink
                   + (if mem p ["B"] then (17 # 20) / len ["B"] else 0).
Proof.
  apply (transition_model_probabilities link_to_sink "A" ["B"] (17 # 20)).
  - exact wf_link_to_sink.
  - exact links_nodup_link_to_sink.
  - now left.
Defined.

(** X7.  When a link of the current page is not a page of the mapping,
    the call fails with [KeyError] (line 59). *)
Theorem transition_model_dangling_link corpus page linked l damping_factor :
  NoDup (keys corpus) -> In (page, linked) corpus ->
  In l linked -> ~ In l (keys corpus) ->
  transition_model corpus page damping_factor = Raise KeyError.
Proof.
  intros ND Hin Hl Hm.
  assert (Hne : corpus <> []) by (destruct corpus; [destruct Hin|discriminate]).
  unfold transition_model.
  rewrite (linked_pages_of_present corpus page linked ND Hin). cbn [bind].
  assert (Hlp : exists lp, link_prob_of damping_factor linked = Ok lp).
  { destruct linked as [|x xs]; [destruct Hl|]. unfold link_prob_of.
    rewrite div_ok; [eauto|].
    pose proof (len_pos (x :: xs) ltac:(discriminate)). lra. }
  destruct Hlp as [lp Hlp]. rewrite Hlp. cbn [bind].
  rewrite div_ok by (pose proof (len_pos corpus Hne); lra). cbn [bind].
  rewrite (fill_distinct (fun _ => (1 - damping_factor) / len corpus)
             (keys corpus) []) by exact ND.
  cbn [app]. apply add_links_missing. exists l. split; [assumption|].
  fold (tabulate (keys corpus) (fun _ => (1 - damping_factor) / len corpus)).
  now rewrite keys_tabulate.
Qed.

(** The statement at [{A: {Z}}]. *)
Lemma transition_model_dangling_link_witness :
  transition_model dangling "A" (17 # 20) = Raise KeyError.
Proof.
  apply (transition_model_dangling_link dangling "A" ["Z"] "Z" (17 # 20)).
  - repeat constructor. intros [].
  - now left.
  - now left.
  - simpl. intuition discriminate.
Defined.

(* ================================================================== *)

(* ================================================================== *)

(* ================================================================== *)
(** ** Further properties of [iterate_pagerank] *)

Lemma rank_formula_no_damping corpus (r : string -> Q) p :
  rank_formula corpus 0 (len corpus) r p == 1 / len corpus.
Proof.
  rewrite rank_formula_sum.
  rewrite (sumQ_ext (contribution 0 r p) (fun _ => 0)).
  - rewrite sumQ_zero. unfold Qdiv. ring.
  - intros e _. unfold contribution. destruct (mem p (snd e)); [|reflexivity].
    unfold Qdiv. ring.
Qed.

(** X12.  With damping 0 the first update changes nothing and the
    iterative estimator returns the initial ranks, [1/N] for every page. *)
Theorem iterate_pagerank_no_damping corpus fuel :
  NoDup (keys corpus) ->
  iterate_pagerank (S fuel) corpus 0
  = Some (Ok (tabulate (keys corpus) (fun _ => 1 / len corpus))).
Proof.
  intros ND. rewrite iterate_pagerank_unfold, iterate_loop_step by assumption.
  replace (close_enough corpus
             (rank_formula corpus 0 (len corpus) (fun _ => 1 / len corpus))
             (fun _ => 1 / len corpus)) with true; [reflexivity|].
  symmetry. apply close_enough_iff. intros p _.
  rewrite rank_formula_no_damping.
  setoid_replace (1 / len corpus - 1 / len corpus) with 0 by ring.
  reflexivity.
Qed.

(** The statement at [{A: {B}, B: {}}] with room for one iteration. *)
Lemma iterate_pagerank_no_damping_witness :
  iterate_pagerank 1 link_to_sink 0
  = Some (Ok (tabulate (keys link_to_sink) (fun _ => 1 / len link_to_sink))).
Proof.
  apply (iterate_pagerank_no_damping link_to_sink 0).
  exact (proj1 wf_link_to_sink).
Defined.

(** X13.  On the empty graph the iterative estimator raises nothing:
    neither division by [N = 0] is ever evaluated, the convergence test
    holds at once and the empty mapping is returned, for every damping
    factor. *)
Theorem iterate_pagerank_empty_graph (damping_factor : Q) (fuel : nat) :
  iterate_pagerank (S fuel) [] damping_factor = Some (Ok []).
Proof. reflexivity. Qed.

(* ================================================================== *)
(** ** [select_folder] *)

Lemma crawl_without_pages files :
  (forall f links, In (f, links) files -> endswith f ".html" = false) ->
  crawl files = [].
Proof.
  intros H. destruct (crawl files) as [|[k v] rest] eqn:E; [reflexivity|].
  assert (Hk : In k (keys (crawl files))) by (rewrite E; now left).
  apply crawl_keys_iff in Hk as [links [Hin Hk]].
  rewrite (H k links Hin) in Hk. discriminate.
Qed.

(** X14.  When the chosen directory holds no [.html] file the callback
    fails with the [IndexError] of the choice of the start page, before
    the iterative estimator is called. *)
Theorem select_folder_without_pages fuel u listing folder_path :
  folder_path <> "" ->
  (forall f links,
      In (f, links) (listing folder_path) -> endswith f ".html" = false) ->
  select_folder fuel u listing folder_path = Some (Raise IndexError).
Proof.
  intros Hp Hnone. unfold select_folder.
  destruct (String.eqb_spec folder_path ""); [contradiction|].
  cbv zeta. now rewrite (crawl_without_pages _ Hnone).
Qed.

(** The statement at a directory that holds one text file. *)
Lemma select_folder_without_pages_witness :
  select_folder 0 (fun _ => 0) (fun _ => [("notes.txt", ["a.html"])]) "site"
  = Some (Raise IndexError).
Proof.
  apply (select_folder_without_pages 0 (fun _ => 0)
           (fun _ => [("notes.txt", ["a.html"])]) "site").
  - discriminate.
  - intros f links [[= <- <-]|[]]. reflexivity.
Defined.

(* ================================================================== *)
(** ** The program over an arithmetic: [transition_model] and
    [sample_pagerank] *)

Lemma size_cons_nonzero {X} (x : X) xs : size (x :: xs) <> 0%Z.
Proof. unfold size. cbn [List.length]. lia. Qed.

Lemma size_nonzero {X} (xs : list X) : xs <> [] -> size xs <> 0%Z.
Proof. destruct xs; [congruence|]. intros _. apply size_cons_nonzero. Qed.

Section GenericWalk.

Variable A : arith.

Lemma div_int_ok (a : number A) k :
  k <> 0%Z -> Generic.div_int A a k = Ok (n_div A a (of_int A k)).
Proof.
  intros H. unfold Generic.div_int.
  destruct (Z.eqb_spec k 0); [contradiction|reflexivity].
Qed.





End GenericWalk.

Lemma lookup_map_keys {V} (f : string -> V) ks k :
  In k ks -> lookup (map (fun k => (k, f k)) ks) k = Some (f k).
Proof.
  induction ks as [|k' ks IH]; intros H; [destruct H|]. cbn [map lookup].
  destruct (String.eqb_spec k k') as [->|Hne]; [reflexivity|].
  destruct H as [->|H]; [contradiction|auto].
Qed.

Lemma keys_map_keys {V} (f : string -> V) ks :
  keys (map (fun k => (k, f k)) ks) = ks.
Proof. unfold keys. rewrite map_map. cbn [fst]. apply map_id. Qed.

Section GenericSampling.

Variable A : arith.
Variable src : Generic.source A.
Variable corpus : corpus_t.
Variable damping_factor : number A.
Variable n : Z.

Hypothesis corpus_wf : wf_corpus corpus.
Hypothesis corpus_nonempty : corpus <> [].
Hypothesis n_positive : (0 < n)%Z.






End GenericSampling.

(* ================================================================== *)
(** ** The program over an arithmetic: [iterate_pagerank] *)

Lemma nil_or_not {X} (xs : list X) : xs = [] \/ xs <> [].
Proof. destruct xs; [now left|right; discriminate]. Qed.

Section GenericIterate.

Variable A : arith.

(** The inner loop (lines 111-113) over any part of the graph, reading
    the ranks from a mapping that covers the linking pages. *)
Lemma generic_inner_loop ks (r : string -> number A) damping_factor page
  (entries : corpus_t) :
  incl (keys entries) ks ->
  forall total,
    for_each entries
      (fun total '(linking_page, linked_pages) =>
         if mem page linked_pages then
           v <- getitem (Generic.tabulate A ks r) linking_page ;;
           c <- Generic.div_int A (n_mul A damping_factor v)
                  (size linked_pages) ;;
           Ok (n_add A total c)
         else Ok total)
      total
    = Ok (fold_left
            (fun total '(linking_page, linked_pages) =>
               if mem page linked_pages
               then n_add A total
                      (n_div A (n_mul A damping_factor (r linking_page))
                         (of_int A (size linked_pages)))
               else total)
            entries total).
Proof.
  induction entries as [|[q linked] entries IH]; intros Hincl total;
    [reflexivity|].
  cbn [for_each fold_left].
  assert (Hq : In q ks) by (apply Hincl; now left).
  assert (Hrest : incl (keys entries) ks)
    by (intros x Hx; apply Hincl; now right).
  destruct (mem page linked) eqn:M; cbn [bind]; [|now apply IH].
  unfold getitem, Generic.tabulate. rewrite lookup_map_keys by assumption.
  cbn [bind]. rewrite div_int_ok.
  - cbn [bind]. now apply IH.
  - apply size_nonzero. apply mem_iff in M. destruct linked; [destruct M|].
    discriminate.
Qed.

(** The convergence test over any part of the pages. *)
Lemma generic_all_pages ks (r' r : string -> number A) (pages : list string) :
  incl pages ks ->
  all_pages
    (fun page =>
       a <- getitem (Generic.tabulate A ks r') page ;;
       b <- getitem (Generic.tabulate A ks r) page ;;
       Ok (Generic.close A a b))
    pages
  = Ok (forallb (fun p => Generic.close A (r' p) (r p)) pages).
Proof.
  induction pages as [|k pages IH]; intros Hincl; [reflexivity|].
  cbn [all_pages forallb].
  assert (Hk : In k ks) by (apply Hincl; now left).
  unfold getitem, Generic.tabulate.
  rewrite !lookup_map_keys by assumption. cbn [bind].
  destruct (Generic.close A _ _); cbn [andb]; [|reflexivity].
  apply IH. intros x Hx. apply Hincl. now right.
Qed.

Variable corpus : corpus_t.
Variable damping_factor : number A.
Hypothesis keys_distinct : NoDup (keys corpus).

Let N : Z := size corpus.
Let T := Generic.tabulate A (keys corpus).
Let F := Generic.rank_formula A corpus damping_factor N.
Let R := Generic.ranks_at A corpus damping_factor.
Let P := Generic.passes A corpus damping_factor.

Lemma generic_new_page_rank_tabulate r :
  Generic.new_page_rank A corpus damping_factor N (T r) = Ok (T (F r)).
Proof.
  destruct (nil_or_not corpus) as [E|Hne].
  { unfold Generic.new_page_rank, T, F, N. now rewrite E. }
  unfold Generic.new_page_rank.
  assert (H : forall ks acc,
             for_each ks
               (fun npr page =>
                  total <- Generic.new_rank A corpus damping_factor N (T r)
                             page ;;
                  Ok (setitem npr page total)) acc
             = Ok (fold_left (fun acc k => setitem acc k (F r k)) ks acc)).
  { induction ks as [|k ks IH]; intros acc; [reflexivity|].
    cbn [for_each fold_left].
    assert (E : Generic.new_rank A corpus damping_factor N (T r) k
                = Ok (F r k)).
    { unfold Generic.new_rank, F, Generic.rank_formula.
      rewrite div_int_ok by now apply size_nonzero.
      cbn [bind]. apply generic_inner_loop, incl_refl. }
    rewrite E. cbn [bind]. apply IH. }
  rewrite H. f_equal. apply (fill_distinct (F r) (keys corpus) []).
  exact keys_distinct.
Qed.

Lemma generic_converged_tabulate r' r :
  Generic.converged A corpus (T r') (T r)
  = Ok (forallb (fun p => Generic.close A (r' p) (r p)) (keys corpus)).
Proof.
  unfold Generic.converged. apply generic_all_pages, incl_refl.
Qed.

Lemma generic_initial_rank :
  Generic.initial_rank A corpus N = Ok (T (R 0%nat)).
Proof.
  destruct (nil_or_not corpus) as [E|Hne].
  { unfold Generic.initial_rank, T, N. now rewrite E. }
  unfold Generic.initial_rank, T, Generic.tabulate, R. cbn [Generic.ranks_at].
  rewrite div_int_ok by now apply size_nonzero.
  cbn [bind]. fold N.
  generalize (n_div A (of_int A 1) (of_int A N)) as c. intros c.
  generalize (keys corpus) as ks.
  induction ks as [|k ks IH]; [reflexivity|].
  cbn [comprehension map bind]. now rewrite IH.
Qed.

Lemma generic_iterate_pagerank_unfold fuel :
  Generic.iterate_pagerank A fuel corpus damping_factor
  = Generic.iterate_loop A fuel corpus damping_factor N (T (R 0%nat)).
Proof.
  unfold Generic.iterate_pagerank. cbv zeta. fold N.
  now rewrite generic_initial_rank.
Qed.

(** One turn of the loop. *)
Lemma generic_loop_step fuel k :
  Generic.iterate_loop A (S fuel) corpus damping_factor N (T (R k))
  = if P k then Some (Ok (T (R k)))
    else Generic.iterate_loop A fuel corpus damping_factor N (T (R (S k))).
Proof.
  cbn [Generic.iterate_loop].
  rewrite generic_new_page_rank_tabulate, generic_converged_tabulate.
  reflexivity.
Qed.

(** The outcome of [fuel] turns of the loop entered with the ranks of
    iteration [k]. *)
Lemma generic_loop_running fuel :
  forall k,
    (forall i, (k <= i < k + fuel)%nat -> P i = false) ->
    Generic.iterate_loop A fuel corpus damping_factor N (T (R k)) = None.
Proof.
  induction fuel as [|fuel IH]; intros k H; [reflexivity|].
  rewrite generic_loop_step, (H k) by lia. apply IH.
  intros i Hi. apply H. lia.
Qed.

Lemma generic_loop_stops fuel :
  forall k j,
    (k <= j < k + fuel)%nat -> P j = true ->
    (forall i, (k <= i < j)%nat -> P i = false) ->
    Generic.iterate_loop A fuel corpus damping_factor N (T (R k))
    = Some (Ok (T (R j))).
Proof.
  induction fuel as [|fuel IH]; intros k j Hj Hp Hf; [lia|].
  rewrite generic_loop_step.
  destruct (Nat.eq_dec k j) as [->|Hne]; [now rewrite Hp|].
  rewrite (Hf k) by lia. apply IH; [lia|assumption|].
  intros i Hi. apply Hf. lia.
Qed.

Lemma generic_loop_outcome fuel :
  forall k outcome,
    Generic.iterate_loop A fuel corpus damping_factor N (T (R k))
    = Some outcome ->
    exists j,
      (k <= j < k + fuel)%nat /\ P j = true
      /\ (forall i, (k <= i < j)%nat -> P i = false)
      /\ outcome = Ok (T (R j)).
Proof.
  induction fuel as [|fuel IH]; intros k outcome H; [discriminate|].
  rewrite generic_loop_step in H. destruct (P k) eqn:Hk.
  - injection H as <-. exists k. repeat split; [lia|lia|assumption|].
    intros i Hi. lia.
  - destruct (IH _ _ H) as [j [Hj [Hp [Hf E]]]].
    exists j. repeat split; [lia|lia|assumption| |assumption].
    intros i Hi. destruct (Nat.eq_dec i k) as [->|Hne]; [assumption|].
    apply Hf. lia.
Qed.

Lemma generic_loop_none fuel :
  forall k,
    Generic.iterate_loop A fuel corpus damping_factor N (T (R k)) = None ->
    forall i, (k <= i < k + fuel)%nat -> P i = false.
Proof.
  induction fuel as [|fuel IH]; intros k H i Hi; [lia|].
  rewrite generic_loop_step in H. destruct (P k) eqn:Hk; [discriminate|].
  destruct (Nat.eq_dec i k) as [->|Hne]; [assumption|].
  apply (IH (S k) H). lia.
Qed.

End GenericIterate.

(** *** Ranks that come round again *)

Section GenericCycle.

Variable A : arith.
Variable corpus : corpus_t.
Variable damping_factor : number A.

Let N : Z := size corpus.
Let T := Generic.tabulate A (keys corpus).
Let R := Generic.ranks_at A corpus damping_factor.
Let P := Generic.passes A corpus damping_factor.

(** The update reads the ranks of the pages of the graph only. *)
Lemma generic_rank_formula_ext (r s : string -> number A) p :
  (forall q, In q (keys corpus) -> r q = s q) ->
  Generic.rank_formula A corpus damping_factor N r p
  = Generic.rank_formula A corpus damping_factor N s p.
Proof.
  intros H. unfold Generic.rank_formula.
  generalize (n_div A (n_sub A (of_int A 1) damping_factor) (of_int A N)).
  assert (Hincl : incl corpus corpus) by apply incl_refl.
  revert Hincl. generalize corpus at 1 3 4 as entries.
  induction entries as [|[q linked] entries IH]; intros Hincl total;
    [reflexivity|].
  cbn [fold_left]. rewrite (H q).
  - apply IH. intros x Hx. apply Hincl. now right.
  - apply (in_map fst) with (x := (q, linked)). apply Hincl. now left.
Qed.

Lemma tabulate_eq ks (r s : string -> number A) :
  Generic.tabulate A ks r = Generic.tabulate A ks s ->
  forall q, In q ks -> r q = s q.
Proof.
  induction ks as [|k ks IH]; intros H q Hq; [destruct Hq|].
  cbn in H. injection H as Hk Hks. destruct Hq as [<-|Hq]; auto.
Qed.

Variables a p : nat.
Hypothesis period_positive : (0 < p)%nat.
Hypothesis comes_round : T (R (a + p)%nat) = T (R a).
Hypothesis fails_so_far : forall i, (i < a + p)%nat -> P i = false.

Lemma ranks_periodic m :
  forall q, In q (keys corpus) -> R (a + p + m)%nat q = R (a + m)%nat q.
Proof.
  induction m as [|m IH]; intros q Hq.
  - rewrite !Nat.add_0_r. now apply (tabulate_eq (keys corpus)).
  - rewrite !Nat.add_succ_r. unfold R. cbn [Generic.ranks_at].
    apply generic_rank_formula_ext. exact IH.
Qed.

Lemma passes_periodic m : P (a + p + m)%nat = P (a + m)%nat.
Proof.
  unfold P, Generic.passes.
  assert (H : forall q, In q (keys corpus) ->
                Generic.close A (R (S (a + p + m)) q) (R (a + p + m)%nat q)
                = Generic.close A (R (S (a + m)) q) (R (a + m)%nat q)).
  { intros q Hq. rewrite (ranks_periodic m q Hq).
    rewrite <- !Nat.add_succ_r. now rewrite (ranks_periodic (S m) q Hq). }
  fold R. revert H. generalize (keys corpus) as ks.
  induction ks as [|k ks IH]; intros H; [reflexivity|].
  cbn [forallb]. rewrite (H k) by now left.
  f_equal. apply IH. intros q Hq. apply H. now right.
Qed.

Lemma never_passes i : P i = false.
Proof.
  induction i as [i IH] using lt_wf_ind.
  destruct (Nat.lt_ge_cases i (a + p)) as [Hlt|Hge];
    [now apply fails_so_far|].
  replace i with (a + p + (i - (a + p)))%nat by lia.
  rewrite passes_periodic. apply IH. lia.
Qed.

(** When the ranks come back to what they were [p] iterations earlier
    and no test has passed until then, the loop never ends. *)
Lemma cycle_runs_forever fuel :
  NoDup (keys corpus) ->
  Generic.iterate_pagerank A fuel corpus damping_factor = None.
Proof.
  intros ND. rewrite generic_iterate_pagerank_unfold.
  apply generic_loop_running; [assumption|].
  intros i _. apply never_passes.
Qed.

End GenericCycle.

Lemma NoDup_keys_fed_cycle : NoDup (keys fed_cycle).
Proof. repeat constructor; simpl; intuition discriminate. Qed.

(** In binary64, with the largest damping factor below 1, the ranks on
    [fed_cycle] are after four updates what they were after one, and no
    test passes on the way. *)
Lemma fed_cycle_never_stops fuel :
  Generic.iterate_pagerank binary64 fuel fed_cycle below_one = None.
Proof.
  apply (cycle_runs_forever binary64 fed_cycle below_one 1 3).
  - lia.
  - vm_compute. reflexivity.
  - intros i Hi.
    assert (H : forallb
                  (fun i => negb (Generic.passes binary64 fed_cycle below_one i))
                  (seq 0 4) = true) by (vm_compute; reflexivity).
    rewrite forallb_forall in H. apply negb_true_iff, H, in_seq. lia.
  - exact NoDup_keys_fed_cycle.
Qed.

(** In binary64 with damping 1 the ranks on [two_into_one] swap for
    ever, as they do in exact arithmetic. *)
Lemma two_into_one_never_stops_binary64 fuel :
  Generic.iterate_pagerank binary64 fuel two_into_one 1%float = None.
Proof.
  apply (cycle_runs_forever binary64 two_into_one 1%float 1 2).
  - lia.
  - vm_compute. reflexivity.
  - intros i Hi.
    assert (H : forallb
                  (fun i => negb (Generic.passes binary64 two_into_one 1%float i))
                  (seq 0 3) = true) by (vm_compute; reflexivity).
    rewrite forallb_forall in H. apply negb_true_iff, H, in_seq. lia.
  - exact (proj1 wf_two_into_one).
Qed.

(* ================================================================== *)
(** ** The properties of the design document, for every arithmetic *)

(** C4, counterexample (the loop never runs indefinitely, an iteration
    cap turns a failure to converge into ConvergenceFailure).  In
    binary64, on the well-formed graph [{A: {B}, B: {C}, C: {A}, D: {A}}]
    with the largest damping factor below 1, the loop is still running
    after any number of iterations. *)
Lemma iterate_pagerank_never_returns :
  wf_corpus fed_cycle
  /\ PrimFloat.ltb 0 below_one = true /\ PrimFloat.ltb below_one 1 = true
  /\ forall fuel,
       Generic.iterate_pagerank binary64 fuel fed_cycle below_one = None.
Proof.
  split; [|split; [reflexivity|split; [reflexivity|]]].
  - split; [exact NoDup_keys_fed_cycle|].
    intros page links link
      [[= <- <-]|[[= <- <-]|[[= <- <-]|[[= <- <-]|[]]]]]; simpl; intuition.
  - exact fed_cycle_never_stops.
Qed.

(** C4, as amended: the loop has no iteration cap and raises no error,
    ConvergenceFailure included, whatever the arithmetic, the graph and
    the damping factor.  A call has returned within [fuel] iterations
    exactly when one of the first [fuel] iterations passes the test of
    line 118, and what it returns are the ranks before the first such
    iteration; it is still running after [fuel] iterations exactly when
    all of them fail the test. *)
Theorem iterate_pagerank_stops_at_first_pass (A : arith) corpus
  (damping_factor : number A) :
  NoDup (keys corpus) ->
  (forall fuel e,
      Generic.iterate_pagerank A fuel corpus damping_factor
      <> Some (Raise e))
  /\ (forall fuel page_rank,
        Generic.iterate_pagerank A fuel corpus damping_factor
        = Some (Ok page_rank)
        <-> exists j,
              (j < fuel)%nat
              /\ Generic.passes A corpus damping_factor j = true
              /\ (forall i, (i < j)%nat ->
                    Generic.passes A corpus damping_factor i = false)
              /\ page_rank
                 = Generic.tabulate A (keys corpus)
                     (Generic.ranks_at A corpus damping_factor j))
  /\ (forall fuel,
        Generic.iterate_pagerank A fuel corpus damping_factor = None
        <-> forall i, (i < fuel)%nat ->
              Generic.passes A corpus damping_factor i = false).
Proof.
  intros ND. split; [|split].
  - intros fuel e H. rewrite generic_iterate_pagerank_unfold in H.
    apply generic_loop_outcome in H as [j [_ [_ [_ H]]]]; [|assumption].
    discriminate.
  - intros fuel pr. rewrite generic_iterate_pagerank_unfold. split.
    + intros H.
      apply generic_loop_outcome in H as [j [Hj [Hp [Hf H]]]]; [|assumption].
      injection H as ->. exists j. repeat split; [lia|assumption| ].
      intros i Hi. apply Hf. lia.
    + intros [j [Hj [Hp [Hf ->]]]].
      apply generic_loop_stops; [assumption|lia|assumption|].
      intros i Hi. apply Hf. lia.
  - intros fuel. rewrite generic_iterate_pagerank_unfold. split.
    + intros H i Hi. apply (generic_loop_none A corpus damping_factor ND
                              fuel 0 H). lia.
    + intros H. apply generic_loop_running; [assumption|].
      intros i Hi. apply H. lia.
Qed.

(** The statement in binary64 at [{A: {B}, B: {}}] with damping 0.85. *)
Lemma iterate_pagerank_stops_at_first_pass_witness :
  (forall fuel e,
      Generic.iterate_pagerank binary64 fuel link_to_sink d085
      <> Some (Raise e))
  /\ (forall fuel page_rank,
        Generic.iterate_pagerank binary64 fuel link_to_sink d085
        = Some (Ok page_rank)
        <-> exists j,
              (j < fuel)%nat
              /\ Generic.passes binary64 link_to_sink d085 j = true
              /\ (forall i, (i < j)%nat ->
                    Generic.passes binary64 link_to_sink d085 i = false)
              /\ page_rank
                 = Generic.tabulate binary64 (keys link_to_sink)
                     (Generic.ranks_at binary64 link_to_sink d085 j))
  /\ (forall fuel,
        Generic.iterate_pagerank binary64 fuel link_to_sink d085 = None
        <-> forall i, (i < fuel)%nat ->
              Generic.passes binary64 link_to_sink d085 i = false).
Proof.
  apply (iterate_pagerank_stops_at_first_pass binary64 link_to_sink d085).
  exact (proj1 wf_link_to_sink).
Defined.




(** That run does return: the walk spends one iteration on [A] and
    three on [B]. *)
Example sample_pagerank_binary64_run :
  Generic.sample_pagerank binary64 halves link_to_sink d085 4
  = Ok [("A", 0.25%float); ("B", 0.75%float)].
Proof. vm_compute. reflexivity. Qed.

Lemma generic_stopped_on_at (A : arith) corpus (damping_factor : number A) j :
  NoDup (keys corpus) ->
  Generic.passes A corpus damping_factor j = true ->
  Generic.stopped_on A corpus damping_factor
    (Generic.tabulate A (keys corpus)
       (Generic.ranks_at A corpus damping_factor j)).
Proof.
  intros ND Hp. split; [apply keys_map_keys|].
  exists j,
    (Generic.tabulate A (keys corpus)
       (Generic.ranks_at A corpus damping_factor (S j))).
  split; [reflexivity|].
  split; [now apply generic_new_page_rank_tabulate|].
  split.
  { rewrite generic_converged_tabulate. f_equal. exact Hp. }
  intros p Hin.
  exists (Generic.ranks_at A corpus damping_factor (S j) p),
         (Generic.ranks_at A corpus damping_factor j p).
  unfold Generic.tabulate. rewrite !lookup_map_keys by assumption.
  repeat split.
  unfold Generic.passes in Hp. rewrite forallb_forall in Hp.
  exact (Hp p Hin).
Qed.

(** C10, counterexample (for the returned ranks [r] and every page [p],
    the update [u(r)[p]] differs from [r[p]] by less than 0.001).  In
    binary64 with damping 0.003 the first update of
    [{A: {B, C, D}, B: {}, C: {B}, D: {B}}] passes the test of line 118
    and the initial ranks, 0.25 for every page, are returned at once;
    yet the update formula moves the rank of [B] by a third of the
    damping factor, which is exactly the number the double 0.001 stands
    for, and that is not below 0.001: the subtraction of line 118 rounds
    it to 0.0009999999999999454. *)
Lemma iterate_pagerank_test_is_rounded :
  exists page_rank d t,
    Generic.iterate_pagerank binary64 1 fed_sink d003 = Some (Ok page_rank)
    /\ page_rank = [("A", 0.25%float); ("B", 0.25%float);
                    ("C", 0.25%float); ("D", 0.25%float)]
    /\ exact_value 0.25%float = Some (1 # 4)
    /\ exact_value d003 = Some d
    /\ exact_value (n_tolerance binary64) = Some t
    /\ Qeq_bool
         (Qabs (rank_formula fed_sink d 4 (exact_rank page_rank) "B"
                - exact_rank page_rank "B")) t = true
    /\ Qle_bool (1 # 1000)
         (Qabs (rank_formula fed_sink d 4 (exact_rank page_rank) "B"
                - exact_rank page_rank "B")) = true.
Proof.
  do 3 eexists.
  split; [vm_compute; reflexivity|].
  split; [reflexivity|].
  split; [vm_compute; reflexivity|].
  split; [vm_compute; reflexivity|].
  split; [vm_compute; reflexivity|].
  split; vm_compute; reflexivity.
Qed.

(** C10, as amended (iterate_pagerank returns the ranks from before the
    final update; the test it has passed is the one the program
    computes).  Whatever the arithmetic, for a graph with pairwise
    distinct keys: a mapping [r] that a call returns has the pages of
    the graph as keys and holds the ranks before some iteration [j]; the
    update computed from [r] in that iteration, which is not returned,
    gives each page [p] the value of lines 108-113,
    [(1 - d)/N] plus [d * r[q] / len(links of q)] for each page [q]
    linking to [p], and its difference to [r[p]] is, in absolute value,
    less than the tolerance 0.001, all as the program computes them. *)
Theorem iterate_pagerank_result_pre_update (A : arith) corpus
  (damping_factor : number A) fuel page_rank :
  NoDup (keys corpus) ->
  Generic.iterate_pagerank A fuel corpus damping_factor
  = Some (Ok page_rank) ->
  Generic.stopped_on A corpus damping_factor page_rank.
Proof.
  intros ND H. rewrite generic_iterate_pagerank_unfold in H.
  apply generic_loop_outcome in H as [j [_ [Hp [_ H]]]]; [|assumption].
  injection H as ->. now apply generic_stopped_on_at.
Qed.

(** The statement in binary64 at [{A: {B}, B: {}}] with damping 0.85,
    where the call returns in its third iteration. *)
Lemma iterate_pagerank_result_pre_update_witness :
  exists page_rank,
    Generic.iterate_pagerank binary64 3 link_to_sink d085
    = Some (Ok page_rank)
    /\ Generic.stopped_on binary64 link_to_sink d085 page_rank.
Proof.
  eexists. split; [vm_compute; reflexivity|].
  apply (iterate_pagerank_result_pre_update binary64 link_to_sink d085 3).
  - exact (proj1 wf_link_to_sink).
  - vm_compute. reflexivity.
Defined.

(** The update that passes the test is thrown away, in binary64 as
    well: with damping 2^-11 one page without links keeps rank 1 although
    the update computes 0.99951171875. *)
Example final_update_discarded_binary64 :
  Generic.iterate_pagerank binary64 1 one_sink 0x1p-11%float
  = Some (Ok [("A", 1%float)])
  /\ Generic.new_page_rank binary64 one_sink 0x1p-11%float 1
       [("A", 1%float)]
     = Ok [("A", 0x1.ffcp-1%float)].
Proof. split; vm_compute; reflexivity. Qed.

